(** * Inventory service: stock ledger, order creation, warehouse transfer,
      and the web-socket broadcast

    A shallow embedding of [main_implementation.py].  The three stock
    endpoints ([update_inventory], [create_order], [transfer_inventory]), the
    broadcast helper [notify_clients] and the connection handler
    [websocket_endpoint] are transcribed as functions on an explicit
    application state.  The read endpoints ([get_inventory], [get_order],
    [get_product]), [create_product] and the account functions
    ([create_user], [login], [create_access_token], [get_current_user])
    follow, each on the tables it touches; what they take from passlib and
    python-jose is the class [Libraries], and the clock and the salt are
    arguments.

    Conventions of the embedding:
    - Python integers and SQL [Integer] columns are [Z].
    - A table is the list of its rows in storage order; [query.first()] is the
      first row of that order that satisfies the filter.  Surrogate keys of
      [Inventory] and [OrderItem] rows, timestamps and relationship
      attributes are never read by the handlers and are not represented;
      [Order.id] is drawn from a sequence that, as in PostgreSQL, a rollback
      does not rewind.
    - A SQLAlchemy session is a working copy of the database: [db.commit()]
      publishes the copy, [db.rollback()] drops it.  The store refuses a
      commit only when a [unique=True] column would repeat; the users,
      products and warehouses that a stock or order row refers to exist.
    - Request bodies typed [Dict[str, int]] or [Dict] are [gmap string Z]:
      subscripting a missing key raises [KeyError]; values that are not
      integers are not represented.
    - [json.dumps] of a dict literal is kept as the association list of its
      fields.
    - An [await] never interleaves with another request: every handler is one
      atomic step. *)

From stdpp Require Import gmap strings list pretty.

Local Open Scope Z_scope.

(** ** Exceptions and outcomes *)

(** The exceptions the handlers can meet.  [StrOf e] stands for Python's
    [str(e)], whose rendering belongs to the library that defines [e]. *)
Inductive exn : Type :=
  | HTTPException (status_code : Z) (detail : text)
  | KeyError (key : string)
  | SendError (client : nat)
with text : Type :=
  | Text (s : string)
  | StrOf (e : exn).

(** What a handler does at its end: return a value or let an exception
    escape to the framework. *)
Inductive outcome (A : Type) : Type :=
  | Return (a : A)
  | Raise (e : exn).
Arguments Return {A} a.
Arguments Raise {A} e.

Definition obind {A B} (m : outcome A) (k : A → outcome B) : outcome B :=
  match m with
  | Return a => k a
  | Raise e => Raise e
  end.

Notation "'do' x <- m ; k" := (obind m (fun x => k))
  (at level 10, x name, m at level 100, k at level 200).

(** [d[key]] on a Python dict. *)
Definition subscript (d : gmap string Z) (key : string) : outcome Z :=
  match d !! key with
  | Some v => Return v
  | None => Raise (KeyError key)
  end.

(** ** Tables *)

Module Inventory.
Record t : Type := mk {
  product_id : Z;
  warehouse_id : Z;
  quantity : Z;
  reserved_quantity : Z;      (* Column(Integer, default=0) *)
  low_stock_threshold : Z
}.

Definition set_quantity (q : Z) (r : t) : t :=
  mk (product_id r) (warehouse_id r) q (reserved_quantity r)
     (low_stock_threshold r).
Definition set_reserved_quantity (q : Z) (r : t) : t :=
  mk (product_id r) (warehouse_id r) (quantity r) q
     (low_stock_threshold r).
Definition set_low_stock_threshold (th : Z) (r : t) : t :=
  mk (product_id r) (warehouse_id r) (quantity r) (reserved_quantity r) th.
End Inventory.

Module Order.
Record t : Type := mk {
  id : Z;
  customer_id : Z;
  status : string;
  warehouse_id : Z
}.

Definition set_status (st : string) (o : t) : t :=
  mk (id o) (customer_id o) st (warehouse_id o).
End Order.

Module OrderItem.
Record t : Type := mk {
  order_id : Z;
  product_id : Z;
  quantity : Z
}.
End OrderItem.

(** The part of the database the three endpoints read and write. *)
Record Db : Type := mkDb {
  inventory : list Inventory.t;
  orders : list Order.t;
  order_items : list OrderItem.t;
  orders_id_seq : Z
}.

Definition with_inventory (inv : list Inventory.t) (d : Db) : Db :=
  mkDb inv (orders d) (order_items d) (orders_id_seq d).
Definition with_orders (os : list Order.t) (d : Db) : Db :=
  mkDb (inventory d) os (order_items d) (orders_id_seq d).
Definition with_order_items (its : list OrderItem.t) (d : Db) : Db :=
  mkDb (inventory d) (orders d) its (orders_id_seq d).
Definition with_orders_id_seq (n : Z) (d : Db) : Db :=
  mkDb (inventory d) (orders d) (order_items d) n.

(** ** Request bodies *)

Module InventoryUpdate.
Record t : Type := mk {
  warehouse_id : Z;
  quantity : Z;
  low_stock_threshold : Z
}.
End InventoryUpdate.

Module OrderCreate.
Record t : Type := mk {
  customer_id : Z;
  warehouse_id : Z;
  items : list (gmap string Z)
}.
End OrderCreate.

(** ** Messages *)

Inductive json : Type :=
  | JInt (n : Z)
  | JStr (s : string).

Definition message : Type := list (string * json).

(** ** Application state *)

(** [connected_clients] is the module-level set of open sockets.  [closed]
    holds the sockets whose peer has gone away: [send_text] raises on them.
    [broadcasts] records each call of [notify_clients] and [delivered] each
    [send_text] that went through, both oldest first. *)
Record App : Type := mkApp {
  db : Db;
  connected_clients : gset nat;
  closed : gset nat;
  broadcasts : list message;
  delivered : list (nat * message)
}.

Definition with_db (d : Db) (s : App) : App :=
  mkApp d (connected_clients s) (closed s) (broadcasts s) (delivered s).
Definition with_connected_clients (cs : gset nat) (s : App) : App :=
  mkApp (db s) cs (closed s) (broadcasts s) (delivered s).
Definition with_closed (cs : gset nat) (s : App) : App :=
  mkApp (db s) (connected_clients s) cs (broadcasts s) (delivered s).
Definition with_broadcasts (bs : list message) (s : App) : App :=
  mkApp (db s) (connected_clients s) (closed s) bs (delivered s).
Definition with_delivered (ds : list (nat * message)) (s : App) : App :=
  mkApp (db s) (connected_clients s) (closed s) (broadcasts s) ds.

(** ** The broadcaster *)

(** [await client.send_text(message)] *)
Definition send_text (client : nat) (m : message) (s : App)
  : App * outcome unit :=
  if decide (client ∈ closed s)
  then (s, Raise (SendError client))
  else (with_delivered (delivered s ++ [(client, m)]) s, Return tt).

(** The [for client in connected_clients] loop: the first failing send ends
    it, the exception escapes. *)
Fixpoint send_all (clients : list nat) (m : message) (s : App)
  : App * outcome unit :=
  match clients with
  | [] => (s, Return tt)
  | client :: rest =>
      match send_text client m s with
      | (s', Return _) => send_all rest m s'
      | (s', Raise e) => (s', Raise e)
      end
  end.

Definition notify_clients (m : message) (s : App) : App * outcome unit :=
  send_all (elements (connected_clients s)) m
           (with_broadcasts (broadcasts s ++ [m]) s).

(** [websocket_endpoint], up to the receive loop: accept and register. *)
Definition websocket_endpoint_accept (websocket : nat) (s : App) : App :=
  with_connected_clients ({[websocket]} ∪ connected_clients s) s.

(** The peer goes away: from now on sends on the socket raise. *)
Definition peer_close (websocket : nat) (s : App) : App :=
  with_closed ({[websocket]} ∪ closed s) s.

(** [websocket_endpoint], the [except:] branch taken when [receive_text]
    raises: [connected_clients.remove(websocket)], itself a [KeyError] when
    the socket is not in the set. *)
Definition websocket_endpoint_except (websocket : nat) (s : App)
  : App * outcome unit :=
  if decide (websocket ∈ connected_clients s)
  then (with_connected_clients (connected_clients s ∖ {[websocket]}) s,
        Return tt)
  else (s, Raise (KeyError (pretty (Z.of_nat websocket)))).

(** ** Queries *)

(** The filter [and_(Inventory.product_id == p, Inventory.warehouse_id == w)]. *)
Definition has_key (p w : Z) (r : Inventory.t) : Prop :=
  Inventory.product_id r = p ∧ Inventory.warehouse_id r = w.

Global Instance has_key_dec p w r : Decision (has_key p w r).
Proof. unfold has_key. apply _. Defined.

(** [db.query(Inventory).filter(...).first()], with the position of the row
    so that it can be written back. *)
Definition first_inventory (p w : Z) (inv : list Inventory.t)
  : option (nat * Inventory.t) :=
  list_find (has_key p w) inv.

(** ** update_inventory *)

Definition low_stock_alert (product_id warehouse_id current_stock : Z)
  : message :=
  [("type", JStr "low_stock_alert");
   ("product_id", JInt product_id);
   ("warehouse_id", JInt warehouse_id);
   ("current_stock", JInt current_stock)].

Definition update_inventory (product_id : Z) (update : InventoryUpdate.t)
    (s : App) : App * outcome Inventory.t :=
  let inv := inventory (db s) in
  let '(inv', row) :=
    match first_inventory product_id (InventoryUpdate.warehouse_id update) inv with
    | None =>
        let row := Inventory.mk product_id
                     (InventoryUpdate.warehouse_id update)
                     (InventoryUpdate.quantity update)
                     0
                     (InventoryUpdate.low_stock_threshold update) in
        (inv ++ [row], row)
    | Some (i, old) =>
        let row := Inventory.set_low_stock_threshold
                     (InventoryUpdate.low_stock_threshold update)
                     (Inventory.set_quantity
                        (InventoryUpdate.quantity update) old) in
        (<[i := row]> inv, row)
    end in
  (* db.commit(); db.refresh(inventory) *)
  let s1 := with_db (with_inventory inv' (db s)) s in
  if decide (Inventory.quantity row ≤ Inventory.low_stock_threshold row)
  then
    match notify_clients
            (low_stock_alert product_id
               (InventoryUpdate.warehouse_id update)
               (InventoryUpdate.quantity update)) s1 with
    | (s2, Return _) => (s2, Return row)
    | (s2, Raise e) => (s2, Raise e)
    end
  else (s1, Return row).

(** ** create_order *)

Definition insufficient_stock (product_id : Z) : exn :=
  HTTPException 400
    (Text ("Insufficient stock for product " +:+ pretty product_id)).

(** One turn of the [for item in order.items] loop, on the session's working
    copy. *)
Definition process_item (order_id warehouse_id : Z) (item : gmap string Z)
    (d : Db) : outcome Db :=
  do product_id <- subscript item "product_id";
  do quantity <- subscript item "quantity";
  match first_inventory product_id warehouse_id (inventory d) with
  | None => Raise (insufficient_stock product_id)
  | Some (i, row) =>
      if decide (Inventory.quantity row < quantity)
      then Raise (insufficient_stock product_id)
      else
        let order_item := OrderItem.mk order_id product_id quantity in
        let row' :=
          Inventory.set_reserved_quantity
            (Inventory.reserved_quantity row + quantity)
            (Inventory.set_quantity (Inventory.quantity row - quantity) row) in
        Return (with_inventory (<[i := row']> (inventory d))
                  (with_order_items (order_items d ++ [order_item]) d))
  end.

Fixpoint process_items (order_id warehouse_id : Z)
    (items : list (gmap string Z)) (d : Db) : outcome Db :=
  match items with
  | [] => Return d
  | item :: rest =>
      do d' <- process_item order_id warehouse_id item d;
      process_items order_id warehouse_id rest d'
  end.

Definition order_created (order_id : Z) : message :=
  [("type", JStr "order_created");
   ("order_id", JInt order_id);
   ("status", JStr "COMPLETED")].

Definition create_order (order : OrderCreate.t) (s : App)
    : App * outcome Order.t :=
  let d := db s in
  (* db.add(db_order); db.flush() *)
  let oid := orders_id_seq d in
  let db_order := Order.mk oid (OrderCreate.customer_id order) "PENDING"
                    (OrderCreate.warehouse_id order) in
  let pos := length (orders d) in
  let d1 := with_orders_id_seq (oid + 1) (with_orders (orders d ++ [db_order]) d) in
  match process_items oid (OrderCreate.warehouse_id order)
          (OrderCreate.items order) d1 with
  | Raise e =>
      (* db.rollback() *)
      (with_db (with_orders_id_seq (oid + 1) d) s,
       Raise (HTTPException 400 (StrOf e)))
  | Return d2 =>
      (* db_order.status = "COMPLETED"; db.commit() *)
      let db_order' := Order.set_status "COMPLETED" db_order in
      let d3 := with_orders (<[pos := db_order']> (orders d2)) d2 in
      let s1 := with_db d3 s in
      match notify_clients (order_created oid) s1 with
      | (s2, Return _) => (s2, Return db_order')
      | (s2, Raise e) =>
          (* db.rollback() with nothing pending *)
          (s2, Raise (HTTPException 400 (StrOf e)))
      end
  end.

(** ** transfer_inventory *)

Definition inventory_transfer (product_id from_warehouse to_warehouse quantity : Z)
  : message :=
  [("type", JStr "inventory_transfer");
   ("product_id", JInt product_id);
   ("from_warehouse", JInt from_warehouse);
   ("to_warehouse", JInt to_warehouse);
   ("quantity", JInt quantity)].

Definition insufficient_inventory : exn :=
  HTTPException 400 (Text "Insufficient inventory in source warehouse").

Definition transfer_completed : message :=
  [("message", JStr "Transfer completed successfully")].

(** The body of the [try] up to [db.commit()], on the working copy. *)
Definition transfer_rows (product_id from_warehouse_id to_warehouse_id quantity : Z)
    (inv : list Inventory.t) : outcome (list Inventory.t) :=
  match first_inventory product_id from_warehouse_id inv with
  | None => Raise insufficient_inventory
  | Some (i, source_inventory) =>
      if decide (Inventory.quantity source_inventory < quantity)
      then Raise insufficient_inventory
      else
        let source' :=
          Inventory.set_quantity
            (Inventory.quantity source_inventory - quantity)
            source_inventory in
        let inv1 := <[i := source']> inv in
        match first_inventory product_id to_warehouse_id inv1 with
        | Some (j, dest_inventory) =>
            Return (<[j := Inventory.set_quantity
                             (Inventory.quantity dest_inventory + quantity)
                             dest_inventory]> inv1)
        | None =>
            Return (inv1 ++
                    [Inventory.mk product_id to_warehouse_id quantity 0
                       (Inventory.low_stock_threshold source')])
        end
  end.

Definition transfer_inventory (warehouse_id : Z)
    (transfer_data : gmap string Z) (s : App) : App * outcome message :=
  match
    (do from_warehouse_id <- subscript transfer_data "from_warehouse_id";
     do to_warehouse_id <- subscript transfer_data "to_warehouse_id";
     do product_id <- subscript transfer_data "product_id";
     do quantity <- subscript transfer_data "quantity";
     Return (from_warehouse_id, to_warehouse_id, product_id, quantity))
  with
  | Raise e => (s, Raise e)
  | Return (from_warehouse_id, to_warehouse_id, product_id, quantity) =>
      match transfer_rows product_id from_warehouse_id to_warehouse_id
              quantity (inventory (db s)) with
      | Raise e =>
          (* db.rollback() *)
          (s, Raise (HTTPException 400 (StrOf e)))
      | Return inv' =>
          (* db.commit() *)
          let s1 := with_db (with_inventory inv' (db s)) s in
          match notify_clients
                  (inventory_transfer product_id from_warehouse_id
                     to_warehouse_id quantity) s1 with
          | (s2, Return _) => (s2, Return transfer_completed)
          | (s2, Raise e) => (s2, Raise (HTTPException 400 (StrOf e)))
          end
      end
  end.

(** ** Sequences of requests *)

Inductive request : Type :=
  | UpdateInventory (product_id : Z) (update : InventoryUpdate.t)
  | CreateOrder (order : OrderCreate.t)
  | TransferInventory (warehouse_id : Z) (transfer_data : gmap string Z).

Definition handle (r : request) (s : App) : App :=
  match r with
  | UpdateInventory p u => fst (update_inventory p u s)
  | CreateOrder o => fst (create_order o s)
  | TransferInventory w t => fst (transfer_inventory w t s)
  end.

Definition run (rs : list request) (s : App) : App :=
  foldl (λ acc r, handle r acc) s rs.

Definition empty_db : Db := mkDb [] [] [] 1.
Definition empty_app : App := mkApp empty_db ∅ ∅ [] [].

(** Request-body builders. *)
Definition item (product_id quantity : Z) : gmap string Z :=
  {[ "product_id" := product_id; "quantity" := quantity ]}.

Definition transfer_body (from_warehouse_id to_warehouse_id product_id quantity : Z)
  : gmap string Z :=
  {[ "from_warehouse_id" := from_warehouse_id;
     "to_warehouse_id" := to_warehouse_id;
     "product_id" := product_id;
     "quantity" := quantity ]}.

(** * Vocabulary of the statements *)

(** ** Rows *)

Definition same_key (r r' : Inventory.t) : Prop :=
  Inventory.product_id r' = Inventory.product_id r
  ∧ Inventory.warehouse_id r' = Inventory.warehouse_id r.

(** What one reservation does to a row. *)
Definition reserve (q : Z) (r : Inventory.t) : Inventory.t :=
  Inventory.mk (Inventory.product_id r) (Inventory.warehouse_id r)
    (Inventory.quantity r - q) (Inventory.reserved_quantity r + q)
    (Inventory.low_stock_threshold r).

(** The stock check of both handlers: [q] units of [p] cannot be taken
    from warehouse [w]. *)
Definition short_of (p w q : Z) (inv : list Inventory.t) : Prop :=
  match first_inventory p w inv with
  | None => True
  | Some (_, row) => Inventory.quantity row < q
  end.

Definition nonneg_row (r : Inventory.t) : Prop :=
  0 ≤ Inventory.quantity r ∧ 0 ≤ Inventory.reserved_quantity r.

Definition ledger_ok (s : App) : Prop :=
  Forall nonneg_row (inventory (db s)).

Definition shrunk (r r' : Inventory.t) : Prop :=
  same_key r r' ∧ Inventory.quantity r' ≤ Inventory.quantity r.

(** ** Level-sets *)

(** The stock table after a level-set. *)
Definition updated_inventory (product_id : Z) (update : InventoryUpdate.t)
    (inv : list Inventory.t) : list Inventory.t :=
  match first_inventory product_id (InventoryUpdate.warehouse_id update) inv with
  | None =>
      inv ++ [Inventory.mk product_id (InventoryUpdate.warehouse_id update)
                (InventoryUpdate.quantity update) 0
                (InventoryUpdate.low_stock_threshold update)]
  | Some (i, old) =>
      <[i := Inventory.mk (Inventory.product_id old)
               (Inventory.warehouse_id old)
               (InventoryUpdate.quantity update)
               (Inventory.reserved_quantity old)
               (InventoryUpdate.low_stock_threshold update)]> inv
  end.

(** ** Orders *)

(** The order as the handler builds it, and as it commits it. *)
Definition pending_order (order : OrderCreate.t) (d : Db) : Order.t :=
  Order.mk (orders_id_seq d) (OrderCreate.customer_id order) "PENDING"
    (OrderCreate.warehouse_id order).

Definition completed_order (order : OrderCreate.t) (d : Db) : Order.t :=
  Order.mk (orders_id_seq d) (OrderCreate.customer_id order) "COMPLETED"
    (OrderCreate.warehouse_id order).

(** The working copy after [db.add(db_order); db.flush()]. *)
Definition flushed (order : OrderCreate.t) (d : Db) : Db :=
  with_orders_id_seq (orders_id_seq d + 1)
    (with_orders (orders d ++ [pending_order order d]) d).

(** What a rollback leaves behind: the database as it was, one sequence
    value spent. *)
Definition rolled_back (s : App) : App :=
  with_db (with_orders_id_seq (orders_id_seq (db s) + 1) (db s)) s.

(** The reservation loop of a request, run on the flushed working copy. *)
Definition reserve_all (order : OrderCreate.t) (s : App) : outcome Db :=
  process_items (orders_id_seq (db s)) (OrderCreate.warehouse_id order)
    (OrderCreate.items order) (flushed order (db s)).

(** The item reads as the pair (product, quantity). *)
Definition reads_as (it : gmap string Z) (pq : Z * Z) : Prop :=
  it !! "product_id" = Some pq.1 ∧ it !! "quantity" = Some pq.2.

(** The warehouse holds a row for the product with at least the units
    asked. *)
Definition in_stock (w : Z) (inv : list Inventory.t) (pq : Z * Z) : Prop :=
  ∃ i row, first_inventory pq.1 w inv = Some (i, row)
           ∧ pq.2 ≤ Inventory.quantity row.

(** No item asks for a negative number of units. *)
Definition nonneg_item (it : gmap string Z) : Prop :=
  ∀ q, it !! "quantity" = Some q → 0 ≤ q.

(** Some item of the list cannot be taken from [inv]. *)
Definition some_short (w : Z) (items : list (gmap string Z))
    (inv : list Inventory.t) : Prop :=
  ∃ it p q, it ∈ items
    ∧ it !! "product_id" = Some p ∧ it !! "quantity" = Some q
    ∧ short_of p w q inv.

(** A row is out of an order's reach when it lies in another warehouse or
    no item names its product. *)
Definition untouched (w : Z) (items : list (gmap string Z))
    (r : Inventory.t) : Prop :=
  Inventory.warehouse_id r ≠ w
  ∨ Forall (λ it, it !! "product_id" ≠ Some (Inventory.product_id r)) items.

(** How a row may differ after the loop: units move between the two pools,
    nothing else changes, and a row out of reach is the same row. *)
Definition moved (w : Z) (items : list (gmap string Z))
    (r r' : Inventory.t) : Prop :=
  same_key r r'
  ∧ Inventory.low_stock_threshold r' = Inventory.low_stock_threshold r
  ∧ Inventory.quantity r' + Inventory.reserved_quantity r'
    = Inventory.quantity r + Inventory.reserved_quantity r
  ∧ (untouched w items r → r' = r).

(** ** Transfers *)

(** The request body reads as a transfer of [q] units of [p] from [w1] to
    [w2]. *)
Definition reads_as_transfer (transfer_data : gmap string Z)
    (w1 w2 p q : Z) : Prop :=
  transfer_data !! "from_warehouse_id" = Some w1
  ∧ transfer_data !! "to_warehouse_id" = Some w2
  ∧ transfer_data !! "product_id" = Some p
  ∧ transfer_data !! "quantity" = Some q.

(** The row a transfer leaves at the destination, with its position. *)
Definition received (p w2 q : Z) (src : Inventory.t)
    (inv : list Inventory.t) : nat * Inventory.t :=
  match first_inventory p w2 inv with
  | Some (j, dst) =>
      (j, Inventory.set_quantity (Inventory.quantity dst + q) dst)
  | None =>
      (length inv,
       Inventory.mk p w2 q 0 (Inventory.low_stock_threshold src))
  end.

(** ** Requests *)

(** The amounts a request carries are not negative. *)
Definition nonneg_request (rq : request) : Prop :=
  match rq with
  | UpdateInventory _ update => 0 ≤ InventoryUpdate.quantity update
  | CreateOrder order => Forall nonneg_item (OrderCreate.items order)
  | TransferInventory _ transfer_data =>
      ∀ q, transfer_data !! "quantity" = Some q → 0 ≤ q
  end.

(** ** The ledger's operations *)

Module Ledger.

Inductive error : Type :=
| InvalidArgument
| InsufficientStock
| InvalidState.

(** Modelled from the spec: the ledger operation [tryReserve] as section
    4.1 words it: "amount>0 required (else fails with InvalidArgument)",
    "fails with InsufficientStock if it does not exist or quantity <
    amount", otherwise "decrements quantity by amount and increments
    reservedQuantity by amount".  The source has this step only inline, in
    the loop of [create_order] and without the check of the sign; the two
    are compared in [process_item_tryReserve]. *)
Definition tryReserve (product_id warehouse_id amount : Z)
    (inv : list Inventory.t) : error + list Inventory.t :=
  if decide (amount ≤ 0) then inl InvalidArgument
  else
    match first_inventory product_id warehouse_id inv with
    | None => inl InsufficientStock
    | Some (i, row) =>
        if decide (Inventory.quantity row < amount)
        then inl InsufficientStock
        else inr (<[i := reserve amount row]> inv)
    end.

(** Modelled from the spec: the ledger operation [release], which the
    source does not have (a failed order is undone by [db.rollback()],
    never by a compensating write).  Section 4.1: release "decrements
    reservedQuantity, increments quantity by amount" and "fails with
    InvalidState if reservedQuantity < amount".  The spec is silent on a
    release against a missing entry; it is given the same error here. *)
Definition release (product_id warehouse_id amount : Z)
    (inv : list Inventory.t) : error + list Inventory.t :=
  match first_inventory product_id warehouse_id inv with
  | None => inl InvalidState
  | Some (i, row) =>
      if decide (Inventory.reserved_quantity row < amount)
      then inl InvalidState
      else inr (<[i := Inventory.mk (Inventory.product_id row)
                         (Inventory.warehouse_id row)
                         (Inventory.quantity row + amount)
                         (Inventory.reserved_quantity row - amount)
                         (Inventory.low_stock_threshold row)]> inv)
  end.

End Ledger.

(** ** Concrete states *)

(** A database holding the given stock rows and nothing else, with no
    observer. *)
Definition stocked (rows : list Inventory.t) : App :=
  mkApp (mkDb rows [] [] 1) ∅ ∅ [] [].

(** The same with observers, some of them closed. *)
Definition observed (rows : list Inventory.t) (clients gone : list nat) : App :=
  mkApp (mkDb rows [] [] 1) (list_to_set clients) (list_to_set gone) [] [].

(** * The remaining endpoints *)

(** ** Reading stock and orders *)

(** [get_inventory]: every row of the product, or 404 when there is none. *)
Definition get_inventory (product_id : Z) (s : App)
  : outcome (list Inventory.t) :=
  let inventory :=
    filter (λ r, Inventory.product_id r = product_id) (inventory (db s)) in
  match inventory with
  | [] => Raise (HTTPException 404 (Text "Inventory not found"))
  | _ :: _ => Return inventory
  end.

(** [get_order]: the first order with the id, or 404. *)
Definition get_order (order_id : Z) (s : App) : outcome Order.t :=
  match list_find (λ o, Order.id o = order_id) (orders (db s)) with
  | None => Raise (HTTPException 404 (Text "Order not found"))
  | Some (_, order) => Return order
  end.

(** ** Faults that carry headers, and constraint violations *)

(** [HTTPException] with its [headers] argument, and the error the store
    raises at [db.commit()] when a [unique=True] column would repeat. *)
Inductive fault : Type :=
| HTTPFault (status_code : Z) (detail : string)
    (headers : option (list (string * string)))
| IntegrityError.

(** ** Products *)

Module Product.
Record t : Type := mk {
  id : Z;
  name : string;
  description : string;
  sku : string;                 (* Column(String, unique=True) *)
  category : string
}.
End Product.

Module ProductCreate.
Record t : Type := mk {
  name : string;
  description : string;
  sku : string;
  category : string
}.
End ProductCreate.

Record Catalog : Type := mkCatalog {
  products : list Product.t;
  products_id_seq : Z
}.

(** ** Users and tokens *)

Module User.
Record t : Type := mk {
  id : Z;
  username : string;            (* Column(String, unique=True) *)
  email : string;               (* Column(String, unique=True) *)
  hashed_password : string;
  is_active : bool;             (* default=True *)
  is_admin : bool               (* default=False *)
}.
End User.

Module UserCreate.
Record t : Type := mk {
  username : string;
  email : string;
  password : string
}.
End UserCreate.

(** The two fields of [OAuth2PasswordRequestForm] that [login] reads. *)
Module LoginForm.
Record t : Type := mk {
  username : string;
  password : string
}.
End LoginForm.

Module Token.
Record t : Type := mk {
  access_token : string;
  token_type : string
}.
End Token.

(** The claims of a token: the code writes and reads [sub] and [exp]
    only.  Times are seconds. *)
Module Claims.
Record t : Type := mk {
  sub : option string;
  exp : option Z
}.
End Claims.

Record Accounts : Type := mkAccounts {
  users : list User.t;
  users_id_seq : Z
}.

(** What the handlers take from passlib and python-jose.  [pwd_hash] has
    the salt that bcrypt draws as its first argument; [pwd_verify] is the
    answer of passlib's [verify] on a stored hash that the library made
    (on any other stored string passlib raises; statements about [login]
    over arbitrary tables assume [hashes_made]); [jwt_encode] and
    [jwt_decode] are the two functions at the configured key and
    algorithm, [jwt_decode] at a given time, with [None] for [JWTError]. *)
Class Libraries : Type := {
  pwd_hash : string → string → string;
  pwd_verify : string → string → bool;
  jwt_encode : Claims.t → string;
  jwt_decode : Z → string → option Claims.t
}.

(** [settings.ACCESS_TOKEN_EXPIRE_MINUTES] *)
Definition ACCESS_TOKEN_EXPIRE_MINUTES : Z := 30.

Definition verify_password `{Libraries} (plain_password hashed_password : string)
  : bool :=
  pwd_verify plain_password hashed_password.

Definition get_password_hash `{Libraries} (salt password : string) : string :=
  pwd_hash salt password.

(** [create_access_token], at the time [now] that [datetime.utcnow()]
    returns. *)
Definition create_access_token `{Libraries} (data : Claims.t) (now : Z)
  : string :=
  let expire := now + ACCESS_TOKEN_EXPIRE_MINUTES * 60 in
  let to_encode := Claims.mk (Claims.sub data) (Some expire) in
  jwt_encode to_encode.

Definition credentials_exception : fault :=
  HTTPFault 401 "Could not validate credentials"
    (Some [("WWW-Authenticate", "Bearer")]).

Definition get_current_user `{Libraries} (token : string) (now : Z)
    (a : Accounts) : fault + User.t :=
  match jwt_decode now token with
  | None => inl credentials_exception
  | Some payload =>
      match Claims.sub payload with
      | None => inl credentials_exception
      | Some username =>
          match list_find (λ u, User.username u = username) (users a) with
          | None => inl credentials_exception
          | Some (_, user) => inr user
          end
      end
  end.

Definition incorrect_login : fault :=
  HTTPFault 401 "Incorrect username or password"
    (Some [("WWW-Authenticate", "Bearer")]).

Definition login `{Libraries} (form_data : LoginForm.t) (now : Z)
    (a : Accounts) : fault + Token.t :=
  match list_find (λ u, User.username u = LoginForm.username form_data)
          (users a) with
  | None => inl incorrect_login
  | Some (_, user) =>
      if verify_password (LoginForm.password form_data)
           (User.hashed_password user)
      then
        let access_token :=
          create_access_token (Claims.mk (Some (User.username user)) None)
            now in
        inr (Token.mk access_token "bearer")
      else inl incorrect_login
  end.

(** The unique indexes of [users]. *)
Definition user_clashes (username email : string) (u : User.t) : Prop :=
  User.username u = username ∨ User.email u = email.

Definition create_user `{Libraries} (user : UserCreate.t) (salt : string)
    (a : Accounts) : Accounts * (fault + UserCreate.t) :=
  let db_user :=
    User.mk (users_id_seq a) (UserCreate.username user)
      (UserCreate.email user)
      (get_password_hash salt (UserCreate.password user)) true false in
  (* db.add(db_user); db.commit() *)
  if decide (Exists (user_clashes (UserCreate.username user)
                       (UserCreate.email user)) (users a))
  then (mkAccounts (users a) (users_id_seq a + 1), inl IntegrityError)
  else (mkAccounts (users a ++ [db_user]) (users_id_seq a + 1), inr user).

(** [create_product]; [current_user] is what the [get_current_user]
    dependency resolved to. *)
Definition create_product (product : ProductCreate.t) (c : Catalog)
    (current_user : User.t) : Catalog * (fault + Product.t) :=
  let db_product :=
    Product.mk (products_id_seq c) (ProductCreate.name product)
      (ProductCreate.description product) (ProductCreate.sku product)
      (ProductCreate.category product) in
  (* db.add(db_product); db.commit() *)
  if decide (Exists (λ p, Product.sku p = ProductCreate.sku product)
               (products c))
  then (mkCatalog (products c) (products_id_seq c + 1), inl IntegrityError)
  else (mkCatalog (products c ++ [db_product]) (products_id_seq c + 1),
        inr db_product).

Definition get_product (product_id : Z) (c : Catalog) : fault + Product.t :=
  match list_find (λ p, Product.id p = product_id) (products c) with
  | None => inl (HTTPFault 404 "Product not found" None)
  | Some (_, product) => inr product
  end.

(** ** Vocabulary of the further statements *)

Definition key (r : Inventory.t) : Z * Z :=
  (Inventory.product_id r, Inventory.warehouse_id r).

(** No two rows of the stock table share a (product, warehouse) pair. *)
Definition keys_unique (inv : list Inventory.t) : Prop :=
  NoDup (key <$> inv).

(** The units of product [p] over all warehouses, counted with [f]. *)
Fixpoint total (f : Inventory.t → Z) (p : Z) (inv : list Inventory.t) : Z :=
  match inv with
  | [] => 0
  | r :: rest =>
      (if decide (Inventory.product_id r = p) then f r else 0)
      + total f p rest
  end.

(** The keys [transfer_inventory] subscripts, in the order it does. *)
Definition transfer_keys : list string :=
  ["from_warehouse_id"; "to_warehouse_id"; "product_id"; "quantity"].

(** The item lacks one of the two keys the loop subscripts. *)
Definition malformed (it : gmap string Z) : Prop :=
  it !! "product_id" = None ∨ it !! "quantity" = None.

(** Order ids are distinct and below the next value of the sequence. *)
Definition order_ids_fresh (d : Db) : Prop :=
  NoDup (Order.id <$> orders d)
  ∧ Forall (λ o, Order.id o < orders_id_seq d) (orders d).

(** Product ids are distinct and below the next value of the sequence. *)
Definition product_ids_fresh (c : Catalog) : Prop :=
  NoDup (Product.id <$> products c)
  ∧ Forall (λ p, Product.id p < products_id_seq c) (products c).

(** The row a level-set leaves under its key. *)
Definition level_row (product_id : Z) (update : InventoryUpdate.t)
    (inv : list Inventory.t) : Inventory.t :=
  Inventory.mk product_id (InventoryUpdate.warehouse_id update)
    (InventoryUpdate.quantity update)
    (match first_inventory product_id
             (InventoryUpdate.warehouse_id update) inv with
     | Some (_, old) => Inventory.reserved_quantity old
     | None => 0
     end)
    (InventoryUpdate.low_stock_threshold update).

(** The errors the reservation loop can end with. *)
Definition loop_error (e : exn) : Prop :=
  e = KeyError "product_id" ∨ e = KeyError "quantity"
  ∨ ∃ p, e = insufficient_stock p.

(** The row [create_user] stores. *)
Definition stored_user `{Libraries} (user : UserCreate.t) (salt : string) (a : Accounts)
  : User.t :=
  User.mk (users_id_seq a) (UserCreate.username user) (UserCreate.email user)
    (get_password_hash salt (UserCreate.password user)) true false.

(** Every stored hash is one that the library made; these are the hashes
    that passlib's [verify] recognises and answers with a boolean. *)
Definition hashes_made `{Libraries} (a : Accounts) : Prop :=
  Forall (λ u, ∃ salt password,
            User.hashed_password u = pwd_hash salt password) (users a).

(** A stand-in for the two libraries, for concrete runs: the hash of a
    password is the password, a token is its subject, and a decoded token
    expires at time 1800. *)
Definition toy_libraries : Libraries :=
  {| pwd_hash := λ _ password, password;
     pwd_verify := λ plain hashed, bool_decide (plain = hashed);
     jwt_encode := λ claims, default "" (Claims.sub claims);
     jwt_decode := λ _ token, Some (Claims.mk (Some token) (Some 1800)) |}.

(** * Properties *)

(** ** The broadcaster leaves the database alone *)

Section Broadcast.
Implicit Types (s : App) (m : message) (clients : list nat).

Lemma send_all_frame clients m s :
  db (send_all clients m s).1 = db s
  ∧ connected_clients (send_all clients m s).1 = connected_clients s
  ∧ closed (send_all clients m s).1 = closed s
  ∧ broadcasts (send_all clients m s).1 = broadcasts s.
Proof.
  revert s. induction clients as [|c rest IH]; intros s; simpl; [done|].
  unfold send_text. case_decide; simpl; [done|].
  destruct (IH (with_delivered (delivered s ++ [(c, m)]) s)) as (?&?&?&?).
  done.
Qed.

(** When no listed socket is closed, each one receives the message, in
    iteration order, and the loop ends normally. *)
Lemma send_all_open clients m s :
  Forall (λ c, c ∉ closed s) clients →
  (send_all clients m s).2 = Return tt
  ∧ delivered (send_all clients m s).1
    = delivered s ++ ((λ c, (c, m)) <$> clients).
Proof.
  revert s. induction clients as [|c rest IH]; intros s Hopen; simpl.
  { by rewrite app_nil_r. }
  apply Forall_cons in Hopen as [Hc Hrest].
  unfold send_text. rewrite decide_False by done.
  destruct (IH (with_delivered (delivered s ++ [(c, m)]) s) Hrest)
    as [-> ->].
  simpl. by rewrite <-app_assoc.
Qed.

(** A closed socket stops the loop: it raises, and the sockets after it
    receive nothing. *)
Lemma send_all_closed pre c post m s :
  Forall (λ c, c ∉ closed s) pre →
  c ∈ closed s →
  (send_all (pre ++ c :: post) m s).2 = Raise (SendError c)
  ∧ delivered (send_all (pre ++ c :: post) m s).1
    = delivered s ++ ((λ c, (c, m)) <$> pre).
Proof.
  revert s. induction pre as [|a pre IH]; intros s Hopen Hc; simpl.
  { unfold send_text. rewrite decide_True by done.
    by rewrite app_nil_r. }
  apply Forall_cons in Hopen as [Ha Hpre].
  unfold send_text. rewrite decide_False by done.
  destruct (IH (with_delivered (delivered s ++ [(a, m)]) s) Hpre Hc)
    as [-> ->].
  simpl. by rewrite <-app_assoc.
Qed.

Lemma notify_clients_frame m s :
  db (notify_clients m s).1 = db s
  ∧ connected_clients (notify_clients m s).1 = connected_clients s
  ∧ closed (notify_clients m s).1 = closed s
  ∧ broadcasts (notify_clients m s).1 = broadcasts s ++ [m].
Proof.
  unfold notify_clients.
  destruct (send_all_frame (elements (connected_clients s)) m
              (with_broadcasts (broadcasts s ++ [m]) s)) as (->&->&->&->).
  done.
Qed.

Lemma notify_clients_open m s :
  connected_clients s ## closed s →
  (notify_clients m s).2 = Return tt
  ∧ delivered (notify_clients m s).1
    = delivered s ++ ((λ c, (c, m)) <$> elements (connected_clients s)).
Proof.
  intros Hdisj. unfold notify_clients.
  apply (send_all_open _ m (with_broadcasts (broadcasts s ++ [m]) s)).
  apply Forall_forall. intros c Hc%elem_of_elements. simpl. set_solver.
Qed.
End Broadcast.

(** Case on the result of the broadcast that the goal is waiting on, having
    recorded what it leaves untouched. *)
Ltac after_notify :=
  match goal with
  | |- context [notify_clients ?m ?s1] =>
      let Hdb := fresh "Hdb" in
      let Hcc := fresh "Hcc" in
      let Hcl := fresh "Hcl" in
      let Hbc := fresh "Hbc" in
      pose proof (notify_clients_frame m s1) as (Hdb & Hcc & Hcl & Hbc);
      destruct (notify_clients m s1) as [? [[]|?]]; simpl in *;
      rewrite ?Hdb, ?Hcc, ?Hcl, ?Hbc
  end.

(** ** Looking rows up after a write *)

Section Queries.
Implicit Types (inv : list Inventory.t) (r : Inventory.t) (p w : Z).

Lemma first_inventory_Some p w inv i r :
  first_inventory p w inv = Some (i, r) →
  inv !! i = Some r ∧ has_key p w r.
Proof. unfold first_inventory. rewrite list_find_Some. by intros (?&?&?). Qed.

(** Writing back a row under its own key keeps it the first of that key. *)
Lemma first_inventory_insert_same p w inv i r r' :
  first_inventory p w inv = Some (i, r) →
  has_key p w r' →
  first_inventory p w (<[i := r']> inv) = Some (i, r').
Proof.
  unfold first_inventory. intros (Hi & _ & Hleast)%list_find_Some Hk.
  apply list_find_Some. split_and!; [|done|].
  - apply list_lookup_insert_eq. by eapply lookup_lt_Some.
  - intros j y Hj Hlt. rewrite list_lookup_insert_ne in Hj by lia. eauto.
Qed.

(** Rewriting a row of another key is invisible to the lookup. *)
Lemma first_inventory_insert_other p w inv i r r' :
  inv !! i = Some r →
  ¬ has_key p w r →
  ¬ has_key p w r' →
  first_inventory p w (<[i := r']> inv) = first_inventory p w inv.
Proof.
  unfold first_inventory. revert i.
  induction inv as [|a inv IH]; intros [|i] Hi Hr Hr'; simplify_eq/=.
  - by rewrite !decide_False.
  - case_decide; [done|]. by rewrite (IH i).
Qed.

Lemma first_inventory_app_None p w inv r :
  first_inventory p w inv = None →
  has_key p w r →
  first_inventory p w (inv ++ [r]) = Some (length inv, r).
Proof.
  unfold first_inventory. intros Hnone Hk.
  rewrite list_find_app_r by done. simpl. rewrite decide_True by done.
  done.
Qed.

Lemma first_inventory_app_other p w inv r :
  ¬ has_key p w r →
  first_inventory p w (inv ++ [r]) = first_inventory p w inv.
Proof.
  unfold first_inventory. intros Hk.
  destruct (list_find (has_key p w) inv) as [[i x]|] eqn:Hf.
  - by apply list_find_app_l.
  - rewrite list_find_app_r by done. simpl. by rewrite decide_False.
Qed.
End Queries.

(** ** update_inventory *)

Section UpdateInventory.
Implicit Types (s : App) (update : InventoryUpdate.t).

Lemma update_inventory_db product_id update s :
  db (update_inventory product_id update s).1
  = with_inventory (updated_inventory product_id update (inventory (db s)))
      (db s).
Proof.
  unfold update_inventory, updated_inventory.
  destruct (first_inventory _ _ _) as [[i old]|]; simpl;
    case_decide; simpl; try done; by after_notify.
Qed.

(** C7.  A level-set of quantity [q] with threshold [t] hands exactly one
    [low_stock_alert] message, carrying the product, the warehouse and
    [q], to the broadcaster when [q <= t], and none otherwise. *)
Theorem update_inventory_low_stock_alert product_id update s :
  broadcasts (update_inventory product_id update s).1
  = broadcasts s ++
    (if decide (InventoryUpdate.quantity update
                ≤ InventoryUpdate.low_stock_threshold update)
     then [low_stock_alert product_id
             (InventoryUpdate.warehouse_id update)
             (InventoryUpdate.quantity update)]
     else []).
Proof.
  unfold update_inventory.
  destruct (first_inventory _ _ _) as [[i old]|]; simpl;
    case_decide; simpl; rewrite ?app_nil_r; try done; by after_notify.
Qed.

(** The instance of the test suite: quantity 5 under threshold 10. *)
Example update_inventory_5_under_10 product_id warehouse_id s :
  broadcasts
    (update_inventory product_id (InventoryUpdate.mk warehouse_id 5 10) s).1
  = broadcasts s ++ [low_stock_alert product_id warehouse_id 5].
Proof.
  unfold update_inventory.
  destruct (first_inventory _ _ _) as [[i old]|]; simpl; by after_notify.
Qed.
End UpdateInventory.

(** ** The reservation loop of create_order *)

Section Reservation.
Implicit Types (d : Db) (inv : list Inventory.t) (r : Inventory.t).
Implicit Types (it : gmap string Z) (items : list (gmap string Z)).

Lemma process_item_Return order_id w it d d' :
  process_item order_id w it d = Return d' →
  ∃ p q i row,
    it !! "product_id" = Some p ∧ it !! "quantity" = Some q
    ∧ first_inventory p w (inventory d) = Some (i, row)
    ∧ q ≤ Inventory.quantity row
    ∧ d' = with_inventory (<[i := reserve q row]> (inventory d))
             (with_order_items
                (order_items d ++ [OrderItem.mk order_id p q]) d).
Proof.
  unfold process_item, subscript.
  destruct (it !! "product_id") as [p|]; simpl; [|done].
  destruct (it !! "quantity") as [q|]; simpl; [|done].
  destruct (first_inventory p w (inventory d)) as [[i row]|] eqn:Hf;
    [|done].
  case_decide; [done|]. intros [= <-].
  exists p, q, i, row. split_and!; first [done | lia].
Qed.

Lemma process_item_reserves order_id w it d p q i row :
  it !! "product_id" = Some p → it !! "quantity" = Some q →
  first_inventory p w (inventory d) = Some (i, row) →
  q ≤ Inventory.quantity row →
  process_item order_id w it d
  = Return (with_inventory (<[i := reserve q row]> (inventory d))
              (with_order_items
                 (order_items d ++ [OrderItem.mk order_id p q]) d)).
Proof.
  intros Hp Hq Hf Hle. unfold process_item, subscript.
  rewrite Hp, Hq. simpl. rewrite Hf. by rewrite decide_False by lia.
Qed.

Lemma process_item_short order_id w it d p q :
  it !! "product_id" = Some p → it !! "quantity" = Some q →
  short_of p w q (inventory d) →
  process_item order_id w it d = Raise (insufficient_stock p).
Proof.
  intros Hp Hq. unfold short_of, process_item, subscript.
  rewrite Hp, Hq. simpl.
  destruct (first_inventory p w (inventory d)) as [[i row]|]; [|done].
  intros Hlt. by rewrite decide_True.
Qed.

(** A lookup sees through any row-wise change that keeps the keys. *)
Lemma first_inventory_Forall2 (R : Inventory.t → Inventory.t → Prop)
    p w inv inv' :
  (∀ r r', R r r' → same_key r r') →
  Forall2 R inv inv' →
  match first_inventory p w inv with
  | None => first_inventory p w inv' = None
  | Some (i, r) => ∃ r', first_inventory p w inv' = Some (i, r') ∧ R r r'
  end.
Proof.
  intros HR Hall. unfold first_inventory.
  induction Hall as [|r r' inv inv' Hrr' _ IH]; simpl; [done|].
  destruct (HR _ _ Hrr') as [Hp Hw].
  assert (has_key p w r ↔ has_key p w r') as Hiff.
  { unfold has_key. by rewrite Hp, Hw. }
  destruct (decide (has_key p w r)) as [Hk|Hk].
  - rewrite decide_True by tauto. eauto.
  - rewrite decide_False by tauto.
    destruct (list_find (has_key p w) inv) as [[i x]|]; simpl.
    + destruct IH as (x' & -> & ?). simpl. eauto.
    + by rewrite IH.
Qed.

Lemma Forall2_insert_r (R : Inventory.t → Inventory.t → Prop)
    inv i r r' :
  (∀ x, R x x) → inv !! i = Some r → R r r' →
  Forall2 R inv (<[i := r']> inv).
Proof.
  intros Hrefl Hi Hr.
  rewrite <-(list_insert_id inv i r) at 1 by done.
  apply Forall2_insert; [|done].
  apply Forall_Forall2_diag, Forall_forall. auto.
Qed.

(** The loop never touches the [orders] table or the sequence. *)
Lemma process_items_orders order_id w items d d' :
  process_items order_id w items d = Return d' →
  orders d' = orders d ∧ orders_id_seq d' = orders_id_seq d.
Proof.
  revert d. induction items as [|it items IH]; intros d; simpl.
  { by intros [= ->]. }
  destruct (process_item order_id w it d) as [d1|e] eqn:Hit; [|done].
  simpl. intros [-> ->]%IH.
  apply process_item_Return in Hit as (p & q & i & row & _ & _ & _ & _ & ->).
  done.
Qed.
End Reservation.

(** ** create_order as a whole *)

Section CreateOrder.
Implicit Types (s : App) (order : OrderCreate.t) (d : Db).

Lemma create_order_Raise order s e :
  reserve_all order s = Raise e →
  create_order order s = (rolled_back s, Raise (HTTPException 400 (StrOf e))).
Proof.
  unfold reserve_all, flushed, pending_order, create_order. by intros ->.
Qed.

Lemma create_order_Return order s d2 :
  reserve_all order s = Return d2 →
  db (create_order order s).1
  = with_orders (orders (db s) ++ [completed_order order (db s)]) d2
  ∧ connected_clients (create_order order s).1 = connected_clients s
  ∧ closed (create_order order s).1 = closed s
  ∧ broadcasts (create_order order s).1
    = broadcasts s ++ [order_created (orders_id_seq (db s))]
  ∧ ((create_order order s).2 = Return (completed_order order (db s))
     ∨ ∃ e, (create_order order s).2 = Raise (HTTPException 400 (StrOf e)))
  ∧ (connected_clients s ## closed s →
     (create_order order s).2 = Return (completed_order order (db s))).
Proof.
  intros Hloop.
  pose proof (process_items_orders _ _ _ _ _ Hloop) as [Ho _].
  revert Hloop.
  unfold reserve_all, flushed, pending_order, create_order. intros ->.
  match goal with
  | |- context [notify_clients ?m ?s1] =>
      pose proof (notify_clients_open m s1) as Hopen
  end.
  assert (<[length (orders (db s)) :=
              Order.set_status "COMPLETED" (pending_order order (db s))]>
            (orders d2)
          = orders (db s) ++ [completed_order order (db s)]) as Hins.
  { rewrite Ho. simpl.
    rewrite insert_app_r_alt by lia. by rewrite Nat.sub_diag. }
  unfold pending_order in Hins. rewrite Hins in *. clear Hins.
  after_notify; (split_and!; [done..|eauto|]).
  - done.
  - intros Hdisj. by destruct (Hopen Hdisj).
Qed.
End CreateOrder.

(** ** Conservation of stock by order creation *)

Section Conservation.
Implicit Types (r : Inventory.t) (items : list (gmap string Z)).

Lemma moved_refl w items r : moved w items r r.
Proof. by unfold moved, same_key. Qed.

Lemma moved_reserve w it p q r :
  it !! "product_id" = Some p → has_key p w r →
  moved w [it] r (reserve q r).
Proof.
  intros Hp [Hrp Hrw]. unfold moved, same_key, untouched. simpl.
  split_and!; [done..|lia|].
  intros [?|Hno%Forall_inv]; [done|]. by rewrite Hrp in Hno.
Qed.

Lemma moved_cons w it items r1 r2 r3 :
  moved w [it] r1 r2 → moved w items r2 r3 → moved w (it :: items) r1 r3.
Proof.
  unfold moved, same_key, untouched.
  intros ([Hp1 Hw1] & Ht1 & Hs1 & Hu1) ([Hp2 Hw2] & Ht2 & Hs2 & Hu2).
  split_and!; [congruence..|lia|].
  intros Hu.
  assert (r2 = r1) as ->.
  { apply Hu1. destruct Hu as [?|[? ?]%Forall_cons]; auto. }
  apply Hu2. destruct Hu as [?|[? ?]%Forall_cons]; auto.
Qed.

Lemma process_items_moved order_id w items d d' :
  process_items order_id w items d = Return d' →
  Forall2 (moved w items) (inventory d) (inventory d').
Proof.
  revert d. induction items as [|it items IH]; intros d; simpl.
  { intros [= ->]. apply Forall_Forall2_diag, Forall_forall.
    intros. apply moved_refl. }
  destruct (process_item order_id w it d) as [d1|e] eqn:Hit; [|done].
  simpl. intros Hrest%IH.
  apply process_item_Return in Hit
    as (p & q & i & row & Hp & _ & [Hi Hk]%first_inventory_Some & _ & ->).
  simpl in Hrest.
  eapply Forall2_trans; [apply moved_cons| |exact Hrest].
  apply Forall2_insert_r with (r := row);
    eauto using moved_refl, moved_reserve.
Qed.

(** Whatever the outcome of the request, row by row. *)
Lemma create_order_moved order s :
  Forall2 (moved (OrderCreate.warehouse_id order) (OrderCreate.items order))
    (inventory (db s)) (inventory (db (create_order order s).1)).
Proof.
  destruct (reserve_all order s) as [d2|e] eqn:Hloop.
  - destruct (create_order_Return _ _ _ Hloop) as (-> & _).
    apply process_items_moved in Hloop. done.
  - rewrite (create_order_Raise _ _ _ Hloop). simpl.
    apply Forall_Forall2_diag, Forall_forall. intros. apply moved_refl.
Qed.

(** C10.  When an order completes, the stock table keeps its rows in place;
    each row keeps its key and its sum of available and reserved units;
    and a row of another warehouse, or of a product that no item names,
    is unchanged. *)
Theorem create_order_conserves_stock order s o :
  (create_order order s).2 = Return o →
  length (inventory (db (create_order order s).1))
  = length (inventory (db s))
  ∧ ∀ i r, inventory (db s) !! i = Some r →
      ∃ r', inventory (db (create_order order s).1) !! i = Some r'
        ∧ Inventory.product_id r' = Inventory.product_id r
        ∧ Inventory.warehouse_id r' = Inventory.warehouse_id r
        ∧ Inventory.quantity r' + Inventory.reserved_quantity r'
          = Inventory.quantity r + Inventory.reserved_quantity r
        ∧ (untouched (OrderCreate.warehouse_id order)
             (OrderCreate.items order) r → r' = r).
Proof.
  intros _. pose proof (create_order_moved order s) as Hall. split.
  - symmetry. by eapply Forall2_length.
  - intros i r Hi.
    destruct (Forall2_lookup_l _ _ _ _ _ Hall Hi)
      as (r' & Hi' & [Hp Hw] & _ & Hsum & Hun).
    eauto 10.
Qed.
End Conservation.

(** ** Rejection of an order *)

Section Rejection.
Implicit Types (s : App) (order : OrderCreate.t) (d : Db).
Implicit Types (it : gmap string Z) (items : list (gmap string Z)).
Implicit Types (inv : list Inventory.t).

Lemma shrunk_refl r : shrunk r r.
Proof. by unfold shrunk, same_key. Qed.

Lemma shrunk_trans r1 r2 r3 : shrunk r1 r2 → shrunk r2 r3 → shrunk r1 r3.
Proof.
  unfold shrunk, same_key. intros ([? ?] & ?) ([? ?] & ?).
  split_and!; [congruence..|lia].
Qed.

Lemma short_of_shrunk p w q inv inv' :
  Forall2 shrunk inv inv' → short_of p w q inv → short_of p w q inv'.
Proof.
  intros Hall. unfold short_of.
  pose proof (first_inventory_Forall2 shrunk p w inv inv') as Hf.
  destruct (first_inventory p w inv) as [[i r]|].
  - destruct Hf as (r' & -> & _ & Hle); [by intros ?? [? _]|done|].
    lia.
  - rewrite Hf; [done|by intros ?? [? _]|done].
Qed.

(** With no negative amounts, stock only leaves the available pool during
    the loop, so an item that is short at the start is still short when
    its turn comes. *)
Lemma process_items_short order_id w items inv0 d :
  Forall nonneg_item items →
  Forall2 shrunk inv0 (inventory d) →
  some_short w items inv0 →
  ∃ e, process_items order_id w items d = Raise e.
Proof.
  revert d. induction items as [|it items IH]; intros d Hnn Hsh Hbad.
  { destruct Hbad as (? & ? & ? & []%elem_of_nil & _). }
  apply Forall_cons in Hnn as [Hit Hnn]. simpl.
  destruct (process_item order_id w it d) as [d1|e] eqn:Hstep; [|by eexists].
  simpl.
  apply process_item_Return in Hstep
    as (p & q & i & row & Hp & Hq & Hf & Hle & ->).
  pose proof (Hit q Hq) as Hq0.
  apply first_inventory_Some in Hf as Hrow. destruct Hrow as [Hi _].
  apply IH; [done| |].
  - simpl. eapply Forall2_trans; [apply shrunk_trans|exact Hsh|].
    apply Forall2_insert_r with (r := row); [apply shrunk_refl|done|].
    unfold shrunk, same_key. simpl. split_and!; [done..|lia].
  - destruct Hbad as (bad & pb & qb & [->|Hin]%elem_of_cons & Hpb & Hqb & Hs).
    + exfalso. simplify_eq.
      apply (short_of_shrunk _ _ _ _ _ Hsh) in Hs.
      unfold short_of in Hs. rewrite Hf in Hs. lia.
    + exists bad, pb, qb. done.
Qed.

(** C2, for requests without negative amounts.  When some item of the
    request cannot be taken from the stock as it stands (no row for its
    product in the order's warehouse, or fewer units than asked), the
    handler answers with a 400 error and rolls back: every table is as
    before, only one order id is spent, and nothing is broadcast. *)
Theorem create_order_all_or_nothing order s :
  Forall nonneg_item (OrderCreate.items order) →
  some_short (OrderCreate.warehouse_id order) (OrderCreate.items order)
    (inventory (db s)) →
  let r := create_order order s in
  (∃ e, r.2 = Raise (HTTPException 400 (StrOf e)))
  ∧ r.1 = rolled_back s
  ∧ inventory (db r.1) = inventory (db s)
  ∧ orders (db r.1) = orders (db s)
  ∧ order_items (db r.1) = order_items (db s)
  ∧ broadcasts r.1 = broadcasts s.
Proof.
  intros Hnn Hbad.
  destruct (process_items_short (orders_id_seq (db s))
              (OrderCreate.warehouse_id order) (OrderCreate.items order)
              (inventory (db s)) (flushed order (db s)) Hnn) as [e He];
    [|done|].
  { apply Forall_Forall2_diag, Forall_forall. intros. apply shrunk_refl. }
  simpl. rewrite (create_order_Raise order s e He). simpl.
  split_and!; [by exists e|done..].
Qed.

(** C6, as the code has it.  When the items before [bad] are all reserved
    and [bad] is the first to fail, the request is rolled back, so no
    order row is kept, and the 400 answer wraps the error raised at
    [bad]; for a stock failure that error names the product of [bad]. *)
Theorem create_order_rejection_cause order s pre bad post d' e :
  OrderCreate.items order = pre ++ bad :: post →
  process_items (orders_id_seq (db s)) (OrderCreate.warehouse_id order)
    pre (flushed order (db s)) = Return d' →
  process_item (orders_id_seq (db s)) (OrderCreate.warehouse_id order)
    bad d' = Raise e →
  create_order order s
  = (rolled_back s, Raise (HTTPException 400 (StrOf e)))
  ∧ orders (db (create_order order s).1) = orders (db s)
  ∧ (∀ p q, bad !! "product_id" = Some p → bad !! "quantity" = Some q →
            e = insufficient_stock p).
Proof.
  intros Hitems Hpre Hbad.
  assert (reserve_all order s = Raise e) as Hloop.
  { unfold reserve_all. rewrite Hitems. clear Hitems.
    revert Hpre. generalize (flushed order (db s)).
    induction pre as [|x pre IH]; intros d0; simpl.
    - intros [= ->]. by rewrite Hbad.
    - destruct (process_item _ _ x d0) as [d1|?]; [|done]. simpl. apply IH. }
  rewrite (create_order_Raise _ _ _ Hloop). split_and!; [done..|].
  intros p q Hp Hq. revert Hbad. unfold process_item, subscript.
  rewrite Hp, Hq. simpl.
  destruct (first_inventory _ _ _) as [[i row]|]; [|congruence].
  case_decide; congruence.
Qed.
End Rejection.

(** ** Completion of an order *)

Section Completion.
Implicit Types (s : App) (order : OrderCreate.t) (d : Db).
Implicit Types (it : gmap string Z) (items : list (gmap string Z)).
Implicit Types (inv : list Inventory.t) (pqs : list (Z * Z)).

Lemma process_items_distinct order_id w items pqs d :
  Forall2 reads_as items pqs →
  NoDup pqs.*1 →
  Forall (in_stock w (inventory d)) pqs →
  ∃ d', process_items order_id w items d = Return d'
    ∧ order_items d'
      = order_items d ++ ((λ pq, OrderItem.mk order_id pq.1 pq.2) <$> pqs)
    ∧ (∀ p q i row, (p, q) ∈ pqs →
         first_inventory p w (inventory d) = Some (i, row) →
         first_inventory p w (inventory d') = Some (i, reserve q row))
    ∧ (∀ p, p ∉ pqs.*1 →
         first_inventory p w (inventory d')
         = first_inventory p w (inventory d)).
Proof.
  intros Hread. revert d.
  induction Hread as [|it [p q] items pqs [Hp Hq] _ IH];
    intros d Hnd Hstock; simpl in *.
  { exists d. rewrite app_nil_r. split_and!; [done..| |done].
    by intros ???? ?%elem_of_nil. }
  apply NoDup_cons in Hnd as [Hfresh Hnd].
  apply Forall_cons in Hstock as [(i & row & Hf & Hle) Hstock].
  simpl in Hf, Hle.
  rewrite (process_item_reserves _ _ _ _ _ _ _ _ Hp Hq Hf Hle). simpl.
  apply first_inventory_Some in Hf as Hrow. destruct Hrow as [Hi Hk].
  (* A lookup for another product does not see the write. *)
  assert (∀ p', p' ≠ p →
            first_inventory p' w (<[i := reserve q row]> (inventory d))
            = first_inventory p' w (inventory d)) as Hother.
  { intros p' Hne. destruct Hk as [Hkp _].
    apply first_inventory_insert_other with (r := row); [done|..];
      intros [Hp' _]; simpl in Hp'; congruence. }
  edestruct (IH (with_inventory (<[i := reserve q row]> (inventory d))
                   (with_order_items
                      (order_items d ++ [OrderItem.mk order_id p q]) d)))
    as (d' & -> & Hitems & Hsame & Hrest); [done| |].
  { simpl. apply Forall_forall. intros [p' q'] Hin.
    destruct (proj1 (Forall_forall _ _) Hstock _ Hin)
      as (i' & row' & Hf' & Hle').
    exists i', row'. split; [|done]. simpl in *. rewrite Hother; [done|].
    intros ->. apply Hfresh. apply list_elem_of_fmap. by exists (p, q'). }
  simpl in *. exists d'. split_and!; [done| | |].
  - rewrite Hitems. by rewrite <-app_assoc.
  - intros p0 q0 i0 row0 [[= -> ->]|Hin]%elem_of_cons Hf0.
    + rewrite Hrest by done. simplify_eq.
      by apply first_inventory_insert_same with (r := row).
    + apply Hsame; [done|]. rewrite Hother; [done|].
      intros ->. apply Hfresh. apply list_elem_of_fmap. by exists (p, q0).
  - intros p' [Hne Hnin]%not_elem_of_cons. rewrite Hrest by done.
    by apply Hother.
Qed.

(** C4, as the code has it.  When the items name pairwise distinct
    products and each product has a row in the order's warehouse holding
    at least the units asked, the order is committed with status
    COMPLETED together with its items; the row of each item gives up
    exactly that item's units to the reserved pool; one [order_created]
    message with the order id and the status is handed to the
    broadcaster; and the handler returns the order when no connected
    socket is closed. *)
Theorem create_order_completes order s pqs :
  Forall2 reads_as (OrderCreate.items order) pqs →
  NoDup pqs.*1 →
  Forall (in_stock (OrderCreate.warehouse_id order) (inventory (db s))) pqs →
  let s' := (create_order order s).1 in
  let o := completed_order order (db s) in
  orders (db s') = orders (db s) ++ [o]
  ∧ Order.status o = "COMPLETED"
  ∧ order_items (db s')
    = order_items (db s) ++ ((λ pq, OrderItem.mk (Order.id o) pq.1 pq.2) <$> pqs)
  ∧ (∀ p q i row, (p, q) ∈ pqs →
       first_inventory p (OrderCreate.warehouse_id order) (inventory (db s))
       = Some (i, row) →
       first_inventory p (OrderCreate.warehouse_id order) (inventory (db s'))
       = Some (i, reserve q row))
  ∧ broadcasts s' = broadcasts s ++ [order_created (Order.id o)]
  ∧ (connected_clients s ## closed s → (create_order order s).2 = Return o).
Proof.
  intros Hread Hnd Hstock.
  destruct (process_items_distinct (orders_id_seq (db s))
              (OrderCreate.warehouse_id order) _ _ (flushed order (db s))
              Hread Hnd Hstock) as (d2 & Hloop & Hitems & Hrows & _).
  destruct (create_order_Return order s d2 Hloop)
    as (Hdb & _ & _ & Hbc & _ & Hret).
  simpl. rewrite Hdb. simpl. split_and!; done.
Qed.
End Completion.

(** ** transfer_inventory *)

Section Transfer.
Implicit Types (s : App) (inv : list Inventory.t).
Implicit Types (transfer_data : gmap string Z).

Lemma transfer_inventory_Raise warehouse_id transfer_data s w1 w2 p q e :
  reads_as_transfer transfer_data w1 w2 p q →
  transfer_rows p w1 w2 q (inventory (db s)) = Raise e →
  transfer_inventory warehouse_id transfer_data s
  = (s, Raise (HTTPException 400 (StrOf e))).
Proof.
  intros (H1 & H2 & H3 & H4) Hrows. unfold transfer_inventory, subscript.
  rewrite H1, H2, H3, H4. simpl. by rewrite Hrows.
Qed.

Lemma transfer_inventory_Return warehouse_id transfer_data s w1 w2 p q inv' :
  reads_as_transfer transfer_data w1 w2 p q →
  transfer_rows p w1 w2 q (inventory (db s)) = Return inv' →
  let r := transfer_inventory warehouse_id transfer_data s in
  db r.1 = with_inventory inv' (db s)
  ∧ broadcasts r.1 = broadcasts s ++ [inventory_transfer p w1 w2 q]
  ∧ (connected_clients s ## closed s → r.2 = Return transfer_completed).
Proof.
  intros (H1 & H2 & H3 & H4) Hrows. unfold transfer_inventory, subscript.
  rewrite H1, H2, H3, H4. simpl. rewrite Hrows.
  match goal with
  | |- context [notify_clients ?m ?s1] =>
      pose proof (notify_clients_open m s1) as Hopen
  end.
  after_notify; (split_and!; [done..|]).
  - done.
  - intros Hdisj. by destruct (Hopen Hdisj).
Qed.

Lemma transfer_rows_short p w1 w2 q inv :
  short_of p w1 q inv →
  transfer_rows p w1 w2 q inv = Raise insufficient_inventory.
Proof.
  unfold short_of, transfer_rows.
  destruct (first_inventory p w1 inv) as [[i src]|]; [|done].
  intros Hlt. by rewrite decide_True.
Qed.

Lemma transfer_rows_distinct p w1 w2 q inv i src :
  first_inventory p w1 inv = Some (i, src) →
  q ≤ Inventory.quantity src →
  w1 ≠ w2 →
  ∃ inv', transfer_rows p w1 w2 q inv = Return inv'
    ∧ first_inventory p w1 inv'
      = Some (i, Inventory.set_quantity (Inventory.quantity src - q) src)
    ∧ first_inventory p w2 inv' = Some (received p w2 q src inv).
Proof.
  intros Hsrc Hle Hne. unfold transfer_rows, received. rewrite Hsrc.
  rewrite decide_False by lia.
  set (src' := Inventory.set_quantity (Inventory.quantity src - q) src).
  apply first_inventory_Some in Hsrc as Hrow. destruct Hrow as [Hi [Hkp Hkw]].
  assert (first_inventory p w1 (<[i := src']> inv) = Some (i, src')) as Hsrc'.
  { by apply first_inventory_insert_same with (r := src). }
  assert (first_inventory p w2 (<[i := src']> inv) = first_inventory p w2 inv)
    as Hdst.
  { apply first_inventory_insert_other with (r := src); [done|..];
      intros [_ Hw]; simpl in Hw; congruence. }
  rewrite Hdst.
  destruct (first_inventory p w2 inv) as [[j dst]|].
  - eexists. split; [done|].
    apply first_inventory_Some in Hdst as Hrow.
    destruct Hrow as [Hj [Hdp Hdw]]. split.
    + rewrite <-Hsrc'.
      apply first_inventory_insert_other with (r := dst); [done|..];
        intros [_ Hw]; simpl in Hw; congruence.
    + by apply first_inventory_insert_same with (r := dst).
  - eexists. split; [done|]. split.
    + unfold first_inventory in *. by apply list_find_app_l.
    + rewrite (first_inventory_app_None _ _ _ _ Hdst) by done.
      by rewrite length_insert.
Qed.

(** C3, as the code has it.  For a transfer between two different
    warehouses whose source row holds at least [q] units: the source row
    loses [q] units, the destination row gains them (a missing
    destination row is created with [q] units, nothing reserved and the
    source's threshold), one [inventory_transfer] message is handed to the
    broadcaster, and the handler reports success when no connected socket
    is closed.  When the source row is missing or holds fewer than [q]
    units, whatever the warehouses, the handler answers with a 400 error
    for insufficient inventory and the state is untouched. *)
Theorem transfer_inventory_moves_stock warehouse_id transfer_data s w1 w2 p q :
  reads_as_transfer transfer_data w1 w2 p q →
  let r := transfer_inventory warehouse_id transfer_data s in
  (∀ i src,
     first_inventory p w1 (inventory (db s)) = Some (i, src) →
     q ≤ Inventory.quantity src →
     w1 ≠ w2 →
     first_inventory p w1 (inventory (db r.1))
     = Some (i, Inventory.set_quantity (Inventory.quantity src - q) src)
     ∧ first_inventory p w2 (inventory (db r.1))
       = Some (received p w2 q src (inventory (db s)))
     ∧ broadcasts r.1 = broadcasts s ++ [inventory_transfer p w1 w2 q]
     ∧ (connected_clients s ## closed s → r.2 = Return transfer_completed))
  ∧ (short_of p w1 q (inventory (db s)) →
     r = (s, Raise (HTTPException 400 (StrOf insufficient_inventory)))).
Proof.
  intros Hread. simpl. split.
  - intros i src Hsrc Hle Hne.
    destruct (transfer_rows_distinct p w1 w2 q _ i src Hsrc Hle Hne)
      as (inv' & Hrows & Hfrom & Hto).
    destruct (transfer_inventory_Return warehouse_id _ s _ _ _ _ inv'
                Hread Hrows) as (-> & Hbc & Hret).
    done.
  - intros Hshort%(transfer_rows_short p w1 w2).
    by eapply transfer_inventory_Raise.
Qed.
End Transfer.

(** ** Amounts of either sign *)

Section Amounts.
Implicit Types (s : App) (d : Db) (it : gmap string Z).

(** A transfer from a warehouse to itself that passes the stock check
    writes the row back as it was. *)
Lemma transfer_rows_same p w q (inv : list Inventory.t) i src :
  first_inventory p w inv = Some (i, src) →
  q ≤ Inventory.quantity src →
  transfer_rows p w w q inv = Return inv.
Proof.
  intros Hsrc Hle. unfold transfer_rows. rewrite Hsrc.
  rewrite decide_False by lia.
  apply first_inventory_Some in Hsrc as Hrow. destruct Hrow as [Hi Hk].
  rewrite (first_inventory_insert_same p w inv i src
             (Inventory.set_quantity (Inventory.quantity src - q) src) Hsrc)
    by done.
  f_equal. rewrite list_insert_insert_eq.
  replace (Inventory.set_quantity
             (Inventory.quantity
                (Inventory.set_quantity (Inventory.quantity src - q) src) + q)
             (Inventory.set_quantity (Inventory.quantity src - q) src))
    with src
    by (destruct src; unfold Inventory.set_quantity; simpl; f_equal; lia).
  by apply list_insert_id.
Qed.

(** C5, as the code has it.  Neither handler looks at the sign of the
    amount.  A reservation or a transfer of [amount <= 0] is answered
    with a 400 error, before any write, when and only because its stock
    check fails (row missing, or fewer units than [amount]); otherwise it
    is carried out like any other amount: the reservation takes [amount]
    from [quantity] and adds it to [reserved_quantity]; the transfer takes
    [amount] from the source row and adds it to the destination row (a
    transfer from a warehouse to itself leaves the table as it was), hands
    one [inventory_transfer] message to the broadcaster and reports success
    when no connected socket is closed. *)
Theorem nonpositive_amount_only_stock_checked (amount : Z) :
  amount ≤ 0 →
  (∀ order_id w it d p,
     it !! "product_id" = Some p → it !! "quantity" = Some amount →
     (short_of p w amount (inventory d) →
      process_item order_id w it d = Raise (insufficient_stock p))
     ∧ (∀ i row,
          first_inventory p w (inventory d) = Some (i, row) →
          amount ≤ Inventory.quantity row →
          process_item order_id w it d
          = Return (with_inventory (<[i := reserve amount row]> (inventory d))
                      (with_order_items
                         (order_items d ++ [OrderItem.mk order_id p amount])
                         d))))
  ∧ (∀ warehouse_id transfer_data s w1 w2 p,
       reads_as_transfer transfer_data w1 w2 p amount →
       let r := transfer_inventory warehouse_id transfer_data s in
       (short_of p w1 amount (inventory (db s)) →
        r = (s, Raise (HTTPException 400 (StrOf insufficient_inventory))))
       ∧ (∀ i src,
            first_inventory p w1 (inventory (db s)) = Some (i, src) →
            amount ≤ Inventory.quantity src →
            (w1 ≠ w2 →
             first_inventory p w1 (inventory (db r.1))
             = Some (i, Inventory.set_quantity
                          (Inventory.quantity src - amount) src)
             ∧ first_inventory p w2 (inventory (db r.1))
               = Some (received p w2 amount src (inventory (db s))))
            ∧ (w1 = w2 → inventory (db r.1) = inventory (db s))
            ∧ orders (db r.1) = orders (db s)
            ∧ order_items (db r.1) = order_items (db s)
            ∧ broadcasts r.1
              = broadcasts s ++ [inventory_transfer p w1 w2 amount]
            ∧ (connected_clients s ## closed s →
               r.2 = Return transfer_completed))).
Proof.
  intros _. split.
  - intros order_id w it d p Hp Hq. split.
    + by apply process_item_short.
    + intros i row Hf Hle. by eapply process_item_reserves.
  - intros warehouse_id transfer_data s w1 w2 p Hread. simpl. split.
    + intros Hshort%(transfer_rows_short p w1 w2).
      by eapply transfer_inventory_Raise.
    + intros i src Hsrc Hle.
      destruct (decide (w1 = w2)) as [->|Hne].
      * pose proof (transfer_rows_same p w2 amount _ i src Hsrc Hle) as Hrows.
        destruct (transfer_inventory_Return warehouse_id _ s _ _ _ _ _
                    Hread Hrows) as (-> & Hbc & Hret).
        split_and!; done.
      * destruct (transfer_rows_distinct p w1 w2 amount _ i src Hsrc Hle Hne)
          as (inv' & Hrows & Hfrom & Hto).
        destruct (transfer_inventory_Return warehouse_id _ s _ _ _ _ inv'
                    Hread Hrows) as (-> & Hbc & Hret).
        split_and!; done.
Qed.
End Amounts.

(** ** Non-negative stock *)

Section NonNegative.
Implicit Types (s : App) (d : Db) (inv : list Inventory.t).
Implicit Types (r : Inventory.t).

Lemma nonneg_row_lookup inv i r :
  Forall nonneg_row inv → inv !! i = Some r → nonneg_row r.
Proof. intros Hall Hi. by eapply Forall_lookup_1. Qed.

Lemma update_inventory_nonneg product_id update s :
  0 ≤ InventoryUpdate.quantity update →
  ledger_ok s → ledger_ok (update_inventory product_id update s).1.
Proof.
  intros Hq Hok. unfold ledger_ok. rewrite update_inventory_db. simpl.
  unfold updated_inventory.
  destruct (first_inventory _ _ _) as [[i old]|] eqn:Hf.
  - apply first_inventory_Some in Hf as [Hi _].
    destruct (nonneg_row_lookup _ _ _ Hok Hi) as [_ Hres].
    by apply Forall_insert.
  - apply Forall_app. split; [done|]. by repeat constructor.
Qed.

Lemma process_items_nonneg order_id w items d d' :
  Forall nonneg_item items →
  Forall nonneg_row (inventory d) →
  process_items order_id w items d = Return d' →
  Forall nonneg_row (inventory d').
Proof.
  revert d. induction items as [|it items IH]; intros d Hnn Hok; simpl.
  { by intros [= <-]. }
  apply Forall_cons in Hnn as [Hit Hnn].
  destruct (process_item order_id w it d) as [d1|e] eqn:Hstep; [|done].
  simpl. apply IH; [done|].
  apply process_item_Return in Hstep
    as (p & q & i & row & _ & Hq & [Hi _]%first_inventory_Some & Hle & ->).
  destruct (nonneg_row_lookup _ _ _ Hok Hi) as [_ Hres].
  pose proof (Hit q Hq). simpl.
  apply Forall_insert; [done|]. split; simpl; lia.
Qed.

Lemma create_order_nonneg order s :
  Forall nonneg_item (OrderCreate.items order) →
  ledger_ok s → ledger_ok (create_order order s).1.
Proof.
  intros Hnn Hok. unfold ledger_ok.
  destruct (reserve_all order s) as [d2|e] eqn:Hloop.
  - destruct (create_order_Return _ _ _ Hloop) as (-> & _). simpl.
    unfold reserve_all in Hloop.
    by eapply process_items_nonneg in Hloop.
  - by rewrite (create_order_Raise _ _ _ Hloop).
Qed.

Lemma transfer_rows_nonneg p w1 w2 q inv inv' :
  0 ≤ q →
  Forall nonneg_row inv →
  transfer_rows p w1 w2 q inv = Return inv' →
  Forall nonneg_row inv'.
Proof.
  intros Hq Hok. unfold transfer_rows.
  destruct (first_inventory p w1 inv) as [[i src]|] eqn:Hsrc; [|done].
  case_decide; [done|].
  apply first_inventory_Some in Hsrc as [Hi _].
  destruct (nonneg_row_lookup _ _ _ Hok Hi) as [_ Hres].
  assert (Forall nonneg_row
            (<[i := Inventory.set_quantity (Inventory.quantity src - q) src]>
               inv)) as Hok1.
  { apply Forall_insert; [done|]. split; simpl; [lia|done]. }
  destruct (first_inventory p w2 _) as [[j dst]|] eqn:Hdst; intros [= <-].
  - apply first_inventory_Some in Hdst as [Hj _].
    destruct (nonneg_row_lookup _ _ _ Hok1 Hj) as [Hdq Hdr].
    apply Forall_insert; [done|]. split; simpl; [lia|done].
  - apply Forall_app. split; [done|]. repeat constructor; simpl; lia.
Qed.

Lemma transfer_inventory_nonneg warehouse_id transfer_data s :
  (∀ q, transfer_data !! "quantity" = Some q → 0 ≤ q) →
  ledger_ok s →
  ledger_ok (transfer_inventory warehouse_id transfer_data s).1.
Proof.
  intros Hq Hok. unfold ledger_ok, transfer_inventory, subscript.
  destruct (transfer_data !! "from_warehouse_id") as [w1|]; [|done].
  destruct (transfer_data !! "to_warehouse_id") as [w2|]; [|done].
  destruct (transfer_data !! "product_id") as [p|]; [|done].
  destruct (transfer_data !! "quantity") as [q|]; [|done].
  simpl.
  destruct (transfer_rows p w1 w2 q _) as [inv'|e] eqn:Hrows; [|done].
  apply transfer_rows_nonneg in Hrows; [|by apply Hq|done].
  by after_notify.
Qed.

Lemma handle_nonneg rq s :
  nonneg_request rq → ledger_ok s → ledger_ok (handle rq s).
Proof.
  destruct rq; simpl;
    eauto using update_inventory_nonneg, create_order_nonneg,
                transfer_inventory_nonneg.
Qed.

(** C1, for requests without negative amounts.  From a state in which no
    row has a negative [quantity] or [reserved_quantity], every sequence
    of level-sets, order creations and transfers whose amounts are not
    negative leads to a state with the same property. *)
Theorem run_keeps_stock_nonneg (rs : list request) s :
  ledger_ok s → Forall nonneg_request rs → ledger_ok (run rs s).
Proof.
  intros Hok Hrs. revert s Hok. unfold run.
  induction Hrs as [|rq rs Hrq _ IH]; intros s Hok; simpl; [done|].
  apply IH. by apply handle_nonneg.
Qed.
End NonNegative.

(** ** Releasing a reservation *)

Section RoundTrip.
Implicit Types (d : Db) (it : gmap string Z).

Lemma release_reserve a (row : Inventory.t) :
  Inventory.mk (Inventory.product_id (reserve a row))
    (Inventory.warehouse_id (reserve a row))
    (Inventory.quantity (reserve a row) + a)
    (Inventory.reserved_quantity (reserve a row) - a)
    (Inventory.low_stock_threshold (reserve a row))
  = row.
Proof. destruct row. simpl. f_equal; lia. Qed.

(** On positive amounts the loop turn of [create_order] does to the stock
    table what the ledger's [tryReserve] does. *)
Lemma process_item_tryReserve order_id w it d d' p a :
  it !! "product_id" = Some p → it !! "quantity" = Some a →
  0 < a →
  process_item order_id w it d = Return d' →
  Ledger.tryReserve p w a (inventory d) = inr (inventory d').
Proof.
  intros Hp Ha Hpos Hstep.
  apply process_item_Return in Hstep
    as (p' & a' & i & row & Hp' & Ha' & Hf & Hle & ->).
  rewrite Hp in Hp'. rewrite Ha in Ha'.
  injection Hp' as <-. injection Ha' as <-.
  unfold Ledger.tryReserve. rewrite decide_False by lia.
  rewrite Hf. by rewrite decide_False by lia.
Qed.

(** The round trip on the ledger's own two operations. *)
Lemma tryReserve_release p w a inv inv' :
  (∀ i row, first_inventory p w inv = Some (i, row) →
            0 ≤ Inventory.reserved_quantity row) →
  Ledger.tryReserve p w a inv = inr inv' →
  Ledger.release p w a inv' = inr inv.
Proof.
  intros Hres. unfold Ledger.tryReserve, Ledger.release.
  case_decide; [done|].
  destruct (first_inventory p w inv) as [[i row]|] eqn:Hf; [|done].
  case_decide; [done|]. intros [= <-].
  apply first_inventory_Some in Hf as Hrow. destruct Hrow as [Hi Hk].
  rewrite (first_inventory_insert_same _ _ _ _ row (reserve a row) Hf)
    by done.
  pose proof (Hres i row eq_refl).
  rewrite decide_False by (simpl; lia).
  rewrite release_reserve, list_insert_insert_eq.
  by rewrite list_insert_id.
Qed.

(** C8.  On a stock entry whose reserved count is not negative, a
    reservation of [a] units that succeeds (one turn of the loop of
    [create_order]) followed at once by [release] of [a] units succeeds
    and gives back the stock table as it was before the reservation. *)
Theorem reserve_then_release order_id w it d d' p a :
  it !! "product_id" = Some p → it !! "quantity" = Some a →
  (∀ i row, first_inventory p w (inventory d) = Some (i, row) →
            0 ≤ Inventory.reserved_quantity row) →
  process_item order_id w it d = Return d' →
  Ledger.release p w a (inventory d') = inr (inventory d).
Proof.
  intros Hp Ha Hres Hstep.
  apply process_item_Return in Hstep
    as (p' & a' & i & row & Hp' & Ha' & Hf & Hle & ->).
  rewrite Hp in Hp'. rewrite Ha in Ha'.
  injection Hp' as <-. injection Ha' as <-.
  simpl. unfold Ledger.release.
  apply first_inventory_Some in Hf as Hrow. destruct Hrow as [Hi Hk].
  rewrite (first_inventory_insert_same _ _ _ _ row (reserve a row) Hf)
    by done.
  pose proof (Hres i row Hf).
  rewrite decide_False by (simpl; lia).
  rewrite release_reserve, list_insert_insert_eq.
  by rewrite list_insert_id.
Qed.
End RoundTrip.

(** ** Observers that go away *)

Section Observers.
Implicit Types (s : App) (m : message).

(** C9, as the code has it.  When an observer's peer goes away and its
    connection handler takes the [except] branch, the observer leaves the
    set; a broadcast that follows, none of the remaining observers being
    closed, ends normally and delivers the message once to each of
    them. *)
Theorem broadcast_after_disconnect (websocket : nat) m s :
  websocket ∈ connected_clients s →
  (connected_clients s ∖ {[websocket]}) ## closed s →
  let s1 := (websocket_endpoint_except websocket (peer_close websocket s)).1 in
  let r := notify_clients m s1 in
  connected_clients s1 = connected_clients s ∖ {[websocket]}
  ∧ r.2 = Return tt
  ∧ delivered r.1
    = delivered s
      ++ ((λ c, (c, m)) <$> elements (connected_clients s ∖ {[websocket]}))
  ∧ (∀ c, c ∈ connected_clients s → c ≠ websocket → (c, m) ∈ delivered r.1).
Proof.
  intros Hin Hdisj. unfold websocket_endpoint_except, peer_close. simpl.
  rewrite decide_True by done. simpl.
  match goal with
  | |- context [notify_clients m ?s1] =>
      destruct (notify_clients_open m s1) as [Hret Hdel]
  end.
  { simpl. intros c [Hc Hne]%elem_of_difference Hcl.
    apply elem_of_union in Hcl as [Hws|Hcl]; [done|].
    apply (Hdisj c); [by apply elem_of_difference|done]. }
  simpl in Hdel. split_and!; [done..|].
  intros c Hc Hne. rewrite Hdel. apply elem_of_app. right.
  apply list_elem_of_fmap. exists c. split; [done|].
  apply elem_of_elements. set_solver.
Qed.
End Observers.

(** * Further properties *)

(** ** Invariants of request sequences *)

Section Invariants.
Implicit Types (s : App) (inv : list Inventory.t) (r : Inventory.t).

(** What every handler keeps, every sequence of requests keeps. *)
Lemma run_invariant (P : App → Prop) (rs : list request) s :
  (∀ rq s0, P s0 → P (handle rq s0)) → P s → P (run rs s).
Proof.
  intros Hstep. revert s. unfold run.
  induction rs as [|rq rs IH]; intros s Hs; simpl; [done|].
  apply IH. by apply Hstep.
Qed.

Lemma keys_insert inv i r r' :
  inv !! i = Some r → key r' = key r →
  key <$> <[i := r']> inv = key <$> inv.
Proof.
  intros Hi Hk. rewrite list_fmap_insert. apply list_insert_id.
  rewrite list_lookup_fmap, Hi. simpl. by rewrite Hk.
Qed.

Lemma first_inventory_None_key p w inv :
  first_inventory p w inv = None → (p, w) ∉ key <$> inv.
Proof.
  unfold first_inventory. rewrite list_find_None, Forall_forall.
  intros Hnone (r & Hk & Hin)%list_elem_of_fmap.
  apply (Hnone r Hin). unfold has_key, key in *. by simplify_eq.
Qed.

Lemma keys_unique_app p w q res th inv :
  first_inventory p w inv = None → keys_unique inv →
  keys_unique (inv ++ [Inventory.mk p w q res th]).
Proof.
  intros Hnone%first_inventory_None_key Hnd. unfold keys_unique.
  rewrite fmap_app. apply NoDup_app. split_and!; [done| |].
  - intros k Hk [->|[]%elem_of_nil]%elem_of_cons. done.
  - simpl. apply NoDup_singleton.
Qed.

Lemma updated_inventory_keys product_id update inv :
  keys_unique inv → keys_unique (updated_inventory product_id update inv).
Proof.
  intros Hnd. unfold updated_inventory.
  destruct (first_inventory _ _ inv) as [[i old]|] eqn:Hf.
  - apply first_inventory_Some in Hf as [Hi _].
    unfold keys_unique. by rewrite (keys_insert _ _ old).
  - by apply keys_unique_app.
Qed.

Lemma process_items_keys order_id w items d d' :
  process_items order_id w items d = Return d' →
  key <$> inventory d' = key <$> inventory d.
Proof.
  intros Hall%process_items_moved.
  induction Hall as [|r r' inv inv' ([Hp Hw] & _) _ IH]; [done|].
  rewrite !fmap_cons. f_equal; [|done]. unfold key. by rewrite Hp, Hw.
Qed.

Lemma transfer_rows_keys p w1 w2 q inv inv' :
  keys_unique inv →
  transfer_rows p w1 w2 q inv = Return inv' →
  keys_unique inv'.
Proof.
  intros Hnd. unfold transfer_rows.
  destruct (first_inventory p w1 inv) as [[i src]|] eqn:Hsrc; [|done].
  case_decide; [done|].
  apply first_inventory_Some in Hsrc as [Hi _].
  set (inv1 := <[i := _]> inv).
  assert (keys_unique inv1) as Hnd1.
  { unfold keys_unique, inv1. by rewrite (keys_insert _ _ src). }
  destruct (first_inventory p w2 inv1) as [[j dst]|] eqn:Hdst; intros [= <-].
  - apply first_inventory_Some in Hdst as [Hj _].
    unfold keys_unique. by rewrite (keys_insert _ _ dst).
  - by apply keys_unique_app.
Qed.

(** What a transfer does to the database, in every case. *)
Lemma transfer_inventory_db warehouse_id transfer_data s :
  db (transfer_inventory warehouse_id transfer_data s).1 = db s
  ∨ ∃ w1 w2 p q inv',
      reads_as_transfer transfer_data w1 w2 p q
      ∧ transfer_rows p w1 w2 q (inventory (db s)) = Return inv'
      ∧ db (transfer_inventory warehouse_id transfer_data s).1
        = with_inventory inv' (db s).
Proof.
  unfold transfer_inventory, subscript.
  destruct (transfer_data !! "from_warehouse_id") as [w1|] eqn:H1; [|by left].
  destruct (transfer_data !! "to_warehouse_id") as [w2|] eqn:H2; [|by left].
  destruct (transfer_data !! "product_id") as [p|] eqn:H3; [|by left].
  destruct (transfer_data !! "quantity") as [q|] eqn:H4; [|by left].
  simpl.
  destruct (transfer_rows p w1 w2 q _) as [inv'|e] eqn:Hrows; [|by left].
  right. exists w1, w2, p, q, inv'. split; [done|]. split; [done|].
  by after_notify.
Qed.

(** What an order does to the database, in every case. *)
Lemma create_order_db order s :
  (∃ e, reserve_all order s = Raise e
        ∧ create_order order s
          = (rolled_back s, Raise (HTTPException 400 (StrOf e))))
  ∨ (∃ d2, reserve_all order s = Return d2
           ∧ db (create_order order s).1
             = with_orders (orders (db s) ++ [completed_order order (db s)]) d2).
Proof.
  destruct (reserve_all order s) as [d2|e] eqn:Hloop.
  - right. exists d2. split; [done|].
    by destruct (create_order_Return _ _ _ Hloop) as (-> & _).
  - left. exists e. split; [done|]. by apply create_order_Raise.
Qed.

Lemma handle_keys_unique rq s :
  keys_unique (inventory (db s)) → keys_unique (inventory (db (handle rq s))).
Proof.
  intros Hnd. destruct rq as [p u|order|w t]; simpl.
  - rewrite update_inventory_db. simpl. by apply updated_inventory_keys.
  - destruct (create_order_db order s) as [(e & _ & ->)|(d2 & Hloop & ->)];
      [done|].
    simpl. unfold keys_unique. unfold reserve_all in Hloop.
    by rewrite (process_items_keys _ _ _ _ _ Hloop).
  - destruct (transfer_inventory_db w t s)
      as [->|(w1 & w2 & p & q & inv' & _ & Hrows & ->)]; [done|].
    simpl. by eapply transfer_rows_keys.
Qed.

(** X1.  The stock table is keyed by (product, warehouse): when no two rows
    share a pair, no sequence of level-sets, orders and transfers makes two
    rows share one. *)
Theorem run_keeps_keys_unique (rs : list request) s :
  keys_unique (inventory (db s)) →
  keys_unique (inventory (db (run rs s))).
Proof.
  apply (run_invariant (λ s0, keys_unique (inventory (db s0)))).
  intros rq s0. apply handle_keys_unique.
Qed.
End Invariants.

(** ** What a broadcast reaches *)

Section BroadcastReach.
Implicit Types (s : App) (m : message) (clients : list nat).

(** A list of sockets either has no closed one or splits at its first
    closed one. *)
Lemma first_closed clients s :
  Forall (λ c, c ∉ closed s) clients
  ∨ ∃ pre c post, clients = pre ++ c :: post
      ∧ Forall (λ c, c ∉ closed s) pre ∧ c ∈ closed s.
Proof.
  induction clients as [|a clients IH]; [by left|].
  destruct (decide (a ∈ closed s)) as [Ha|Ha].
  - right. by exists [], a, clients.
  - destruct IH as [Hall|(pre & c & post & -> & Hpre & Hc)].
    + left. by constructor.
    + right. exists (a :: pre), c, post. split_and!; [done| |done].
      by constructor.
Qed.

Lemma closed_with_broadcasts bs s : closed (with_broadcasts bs s) = closed s.
Proof. done. Qed.

(** The two ways a broadcast can go. *)
Lemma notify_clients_cases m s :
  (connected_clients s ## closed s
   ∧ (notify_clients m s).2 = Return tt
   ∧ delivered (notify_clients m s).1
     = delivered s ++ ((λ c, (c, m)) <$> elements (connected_clients s)))
  ∨ (∃ pre c post,
       elements (connected_clients s) = pre ++ c :: post
       ∧ Forall (λ c, c ∉ closed s) pre
       ∧ c ∈ connected_clients s ∧ c ∈ closed s
       ∧ (notify_clients m s).2 = Raise (SendError c)
       ∧ delivered (notify_clients m s).1
         = delivered s ++ ((λ c, (c, m)) <$> pre)).
Proof.
  unfold notify_clients.
  set (s0 := with_broadcasts (broadcasts s ++ [m]) s).
  destruct (first_closed (elements (connected_clients s)) s0)
    as [Hopen|(pre & c & post & Hsplit & Hpre & Hc)].
  - left. destruct (send_all_open _ m s0 Hopen) as [Hret Hdel].
    split_and!; [|done..]. intros c Hin Hcl.
    rewrite Forall_forall in Hopen.
    by apply (Hopen c); [apply elem_of_elements|].
  - right. exists pre, c, post. rewrite Hsplit.
    destruct (send_all_closed pre c post m s0 Hpre Hc) as [Hret Hdel].
    split_and!; [done..| |done|done|done].
    apply elem_of_elements. rewrite Hsplit.
    apply elem_of_app. right. by left.
Qed.

(** X2.  A broadcast ends normally exactly when no connected socket is
    closed; otherwise what escapes is the send error of a socket that is
    both connected and closed. *)
Theorem notify_clients_outcome m s :
  ((notify_clients m s).2 = Return tt ↔ connected_clients s ## closed s)
  ∧ (∀ e, (notify_clients m s).2 = Raise e →
          ∃ c, e = SendError c ∧ c ∈ connected_clients s ∧ c ∈ closed s).
Proof.
  destruct (notify_clients_cases m s)
    as [(Hdisj & -> & _)|(pre & c & post & _ & _ & Hin & Hcl & -> & _)].
  - split; [done|]. by intros e [=].
  - split.
    + split; [done|]. intros Hdisj. by destruct (Hdisj c).
    + intros e [= <-]. by exists c.
Qed.

(** X3.  Whatever its outcome, a broadcast leaves the set of observers as
    it was and sends the message at most once to a socket, and only to
    sockets that are connected and not closed; when it ends normally every
    connected socket has received it. *)
Theorem notify_clients_deliveries m s :
  ∃ new : list (nat * message),
    delivered (notify_clients m s).1 = delivered s ++ new
    ∧ NoDup new
    ∧ (∀ c m', (c, m') ∈ new →
         m' = m ∧ c ∈ connected_clients s ∧ c ∉ closed s)
    ∧ ((notify_clients m s).2 = Return tt →
       ∀ c, c ∈ connected_clients s → (c, m) ∈ new)
    ∧ connected_clients (notify_clients m s).1 = connected_clients s.
Proof.
  destruct (notify_clients_frame m s) as (_ & Hcc & _ & _).
  pose proof (NoDup_elements (connected_clients s)) as Hnd.
  assert (∀ sent : list nat,
            NoDup sent →
            (∀ c, c ∈ sent → c ∈ connected_clients s ∧ c ∉ closed s) →
            NoDup ((λ c, (c, m)) <$> sent)
            ∧ ∀ c m', (c, m') ∈ (λ c, (c, m)) <$> sent →
                m' = m ∧ c ∈ connected_clients s ∧ c ∉ closed s) as Hsent.
  { intros sent Hnds Hin. split.
    - assert (Inj (=) (=) (λ c : nat, (c, m))) by (by intros ?? [= ->]).
      by apply (NoDup_fmap_2 _).
    - intros c m' (c' & [= -> ->] & Hc')%list_elem_of_fmap.
      split; [done|]. by apply Hin. }
  destruct (notify_clients_cases m s)
    as [(Hdisj & Hret & Hdel)
       |(pre & c & post & Hsplit & Hpre & Hin & Hcl & Hret & Hdel)].
  - exists ((λ c, (c, m)) <$> elements (connected_clients s)).
    destruct (Hsent (elements (connected_clients s)) Hnd) as [Hnd' Hin'].
    { intros c Hin%elem_of_elements. split; [done|].
      intros Hcl. by apply (Hdisj c). }
    split_and!; [done..| |done].
    intros _ c Hin. apply list_elem_of_fmap. exists c.
    split; [done|]. by apply elem_of_elements.
  - exists ((λ c, (c, m)) <$> pre).
    destruct (Hsent pre) as [Hnd' Hin'].
    { rewrite Hsplit in Hnd. by apply NoDup_app in Hnd as (? & _ & _). }
    { intros a Ha. split.
      - apply elem_of_elements. rewrite Hsplit.
        apply elem_of_app. by left.
      - rewrite Forall_forall in Hpre. by apply Hpre. }
    split_and!; [done..| |done].
    by rewrite Hret.
Qed.

(** X4.  A socket that connects and whose handler then takes the [except]
    branch leaves the application state exactly as it found it. *)
Theorem websocket_connect_disconnect (websocket : nat) s :
  websocket ∉ connected_clients s →
  websocket_endpoint_except websocket (websocket_endpoint_accept websocket s)
  = (s, Return tt).
Proof.
  intros Hnew. unfold websocket_endpoint_except, websocket_endpoint_accept.
  simpl. rewrite decide_True by (apply elem_of_union; left; by apply elem_of_singleton).
  f_equal. destruct s as [d cc cl bs ds]. unfold with_connected_clients.
  simpl in *. f_equal. apply set_eq. intros c.
  rewrite elem_of_difference, elem_of_union, !elem_of_singleton.
  split; [by intros [[->|?] ?]|]. intros Hc. split; [by right|].
  by intros ->.
Qed.
End BroadcastReach.

(** ** Level-sets read back *)

Section LevelSets.
Implicit Types (s : App) (update : InventoryUpdate.t).
Implicit Types (inv : list Inventory.t).

Lemma updated_inventory_first product_id update inv :
  ∃ i, first_inventory product_id (InventoryUpdate.warehouse_id update)
         (updated_inventory product_id update inv)
       = Some (i, level_row product_id update inv)
     ∧ (i < length (updated_inventory product_id update inv))%nat.
Proof.
  unfold updated_inventory, level_row.
  destruct (first_inventory _ _ inv) as [[i old]|] eqn:Hf.
  - exists i. apply first_inventory_Some in Hf as Hrow.
    destruct Hrow as [Hi [Hp Hw]]. rewrite Hp, Hw. split.
    + by apply first_inventory_insert_same with (r := old).
    + rewrite length_insert. by eapply lookup_lt_Some.
  - exists (length inv). split.
    + by apply first_inventory_app_None.
    + rewrite length_app. simpl. lia.
Qed.

Lemma update_inventory_outcome product_id update s :
  (update_inventory product_id update s).2
  = Return (level_row product_id update (inventory (db s)))
  ∨ ∃ c, c ∈ connected_clients s ∧ c ∈ closed s
      ∧ (update_inventory product_id update s).2 = Raise (SendError c).
Proof.
  unfold update_inventory, level_row.
  destruct (first_inventory _ _ (inventory (db s))) as [[i old]|] eqn:Hf;
    simpl.
  - apply first_inventory_Some in Hf as [_ [Hp Hw]].
    unfold Inventory.set_low_stock_threshold, Inventory.set_quantity. simpl.
    rewrite Hp, Hw.
    case_decide; [|by left].
    match goal with
    | |- context [notify_clients ?m ?s1] =>
        destruct (notify_clients_cases m s1)
          as [(_ & Hret & _)|(? & c & ? & _ & _ & Hin & Hcl & Hret & _)];
        destruct (notify_clients m s1) as [s2 [[]|e]]; simpl in *;
        simplify_eq
    end; [by left|right; by exists c].
  - case_decide; [|by left].
    match goal with
    | |- context [notify_clients ?m ?s1] =>
        destruct (notify_clients_cases m s1)
          as [(_ & Hret & _)|(? & c & ? & _ & _ & Hin & Hcl & Hret & _)];
        destruct (notify_clients m s1) as [s2 [[]|e]]; simpl in *;
        simplify_eq
    end; [by left|right; by exists c].
Qed.

(** X5.  After a level-set the first row of the (product, warehouse) pair
    carries the quantity and the threshold of the request, and the reserved
    count the pair had before (zero for a new pair); the level is committed
    before the alert goes out, so this holds whether or not the alert
    could be sent; and a handler that returns, returns that row. *)
Theorem update_inventory_reads_back product_id update s :
  let r := update_inventory product_id update s in
  let row := level_row product_id update (inventory (db s)) in
  (∃ i, first_inventory product_id (InventoryUpdate.warehouse_id update)
          (inventory (db r.1)) = Some (i, row))
  ∧ (∀ row', r.2 = Return row' → row' = row).
Proof.
  simpl. split.
  - rewrite update_inventory_db. simpl.
    destruct (updated_inventory_first product_id update (inventory (db s)))
      as (i & Hi & _).
    by exists i.
  - destruct (update_inventory_outcome product_id update s)
      as [Hret|(c & Hin & Hcl & Hret)]; rewrite Hret; [|done].
    by intros row' [= <-].
Qed.

(** X6.  A level-set writes one row: every row that is not the first of
    the (product, warehouse) pair stays where it is, unchanged, and the
    table grows by one row exactly when the pair had none. *)
Theorem update_inventory_frame product_id update s :
  let inv := inventory (db s) in
  let inv' := inventory (db (update_inventory product_id update s).1) in
  (∀ j r, inv !! j = Some r →
          first_inventory product_id (InventoryUpdate.warehouse_id update) inv
          ≠ Some (j, r) →
          inv' !! j = Some r)
  ∧ length inv'
    = (length inv
       + match first_inventory product_id
                 (InventoryUpdate.warehouse_id update) inv with
         | Some _ => 0
         | None => 1
         end)%nat.
Proof.
  simpl. rewrite update_inventory_db. simpl. unfold updated_inventory.
  destruct (first_inventory _ _ (inventory (db s))) as [[i old]|] eqn:Hf.
  - split; [|rewrite length_insert; lia].
    intros j r Hj Hne. apply first_inventory_Some in Hf as [Hi _].
    rewrite list_lookup_insert_ne; [done|]. intros ->. simplify_eq.
  - split; [|rewrite length_app; simpl; lia].
    intros j r Hj _. by apply lookup_app_l_Some.
Qed.

(** X7.  On a stock table in which no two rows share a (product,
    warehouse) pair, sending the same level-set a second time changes
    nothing in the table. *)
Theorem update_inventory_idempotent product_id update s :
  keys_unique (inventory (db s)) →
  let s1 := (update_inventory product_id update s).1 in
  inventory (db (update_inventory product_id update s1).1)
  = inventory (db s1)
  ∧ keys_unique (inventory (db s1)).
Proof.
  intros Hnd. simpl. rewrite !update_inventory_db. simpl.
  split; [|by apply updated_inventory_keys].
  set (inv1 := updated_inventory product_id update (inventory (db s))).
  destruct (updated_inventory_first product_id update (inventory (db s)))
    as (i & Hf & _).
  fold inv1 in Hf. unfold updated_inventory at 1. rewrite Hf.
  apply first_inventory_Some in Hf as [Hi _].
  by apply list_insert_id.
Qed.

(** X8.  After a level-set for a product, [get_inventory] for that product
    is never a 404: it returns exactly the stored rows of the product, and
    the row just written is among them. *)
Theorem get_inventory_after_update product_id update s :
  let s1 := (update_inventory product_id update s).1 in
  ∃ rows, get_inventory product_id s1 = Return rows
    ∧ level_row product_id update (inventory (db s)) ∈ rows
    ∧ ∀ r, r ∈ rows ↔
           r ∈ inventory (db s1) ∧ Inventory.product_id r = product_id.
Proof.
  simpl. set (s1 := (update_inventory product_id update s).1).
  assert (level_row product_id update (inventory (db s))
          ∈ filter (λ r, Inventory.product_id r = product_id)
              (inventory (db s1))) as Hin.
  { unfold s1. rewrite update_inventory_db. simpl.
    destruct (updated_inventory_first product_id update (inventory (db s)))
      as (i & [Hi _]%first_inventory_Some & _).
    apply list_elem_of_filter. split; [done|].
    by eapply list_elem_of_lookup_2. }
  unfold get_inventory.
  destruct (filter _ (inventory (db s1))) as [|r0 rows] eqn:Hrows.
  { by apply elem_of_nil in Hin. }
  exists (r0 :: rows). split; [done|]. split; [done|].
  intros r. rewrite <-Hrows, list_elem_of_filter. tauto.
Qed.
End LevelSets.

(** ** Transfers conserve stock *)

Section TransferConservation.
Implicit Types (s : App) (inv : list Inventory.t) (r : Inventory.t).
Implicit Types (f : Inventory.t → Z).

Lemma total_app f p inv1 inv2 :
  total f p (inv1 ++ inv2) = total f p inv1 + total f p inv2.
Proof. induction inv1 as [|r inv1 IH]; simpl; [done|]. rewrite IH. lia. Qed.

Lemma total_insert f p inv i r r' :
  inv !! i = Some r →
  Inventory.product_id r' = Inventory.product_id r →
  total f p (<[i := r']> inv)
  = total f p inv
    + (if decide (Inventory.product_id r = p) then f r' - f r else 0).
Proof.
  revert i. induction inv as [|a inv IH]; intros [|i] Hi Hp; simplify_eq/=.
  - rewrite Hp. case_decide; lia.
  - rewrite (IH i) by done. lia.
Qed.

Lemma transfer_rows_total f p w1 w2 q inv inv' p' :
  (f = Inventory.quantity ∨ f = Inventory.reserved_quantity) →
  transfer_rows p w1 w2 q inv = Return inv' →
  total f p' inv' = total f p' inv.
Proof.
  intros Hf. unfold transfer_rows.
  destruct (first_inventory p w1 inv) as [[i src]|] eqn:Hsrc; [|done].
  case_decide; [done|].
  apply first_inventory_Some in Hsrc as [Hi [Hsp _]].
  set (src' := Inventory.set_quantity (Inventory.quantity src - q) src).
  destruct (first_inventory p w2 (<[i := src']> inv)) as [[j dst]|] eqn:Hdst;
    intros [= <-].
  - apply first_inventory_Some in Hdst as [Hj [Hdp _]].
    rewrite (total_insert _ _ _ _ dst) by done.
    rewrite (total_insert _ _ _ _ src) by done.
    rewrite Hsp, Hdp. case_decide; [|lia].
    destruct Hf as [-> | ->]; simpl; lia.
  - rewrite total_app, (total_insert _ _ _ _ src) by done. simpl.
    rewrite Hsp. case_decide; [|lia].
    destruct Hf as [-> | ->]; simpl; lia.
Qed.

(** X9.  A transfer neither creates nor destroys units: whatever the
    request and its outcome, the available units of every product, summed
    over all warehouses, are the same after as before, and so are the
    reserved units. *)
Theorem transfer_inventory_conserves warehouse_id transfer_data s p :
  let s' := (transfer_inventory warehouse_id transfer_data s).1 in
  total Inventory.quantity p (inventory (db s'))
  = total Inventory.quantity p (inventory (db s))
  ∧ total Inventory.reserved_quantity p (inventory (db s'))
    = total Inventory.reserved_quantity p (inventory (db s)).
Proof.
  simpl.
  destruct (transfer_inventory_db warehouse_id transfer_data s)
    as [->|(w1 & w2 & p0 & q & inv' & _ & Hrows & ->)]; [done|].
  simpl. split; eapply transfer_rows_total; eauto.
Qed.

Lemma transfer_rows_existing p a b q inv i x j y :
  a ≠ b →
  first_inventory p a inv = Some (i, x) →
  first_inventory p b inv = Some (j, y) →
  q ≤ Inventory.quantity x →
  i ≠ j
  ∧ transfer_rows p a b q inv
    = Return (<[j := Inventory.set_quantity (Inventory.quantity y + q) y]>
                (<[i := Inventory.set_quantity (Inventory.quantity x - q) x]>
                   inv)).
Proof.
  intros Hne Hx Hy Hle.
  apply first_inventory_Some in Hx as Hrx. destruct Hrx as [Hi [_ Hxw]].
  apply first_inventory_Some in Hy as Hry. destruct Hry as [Hj [_ Hyw]].
  split; [intros ->; simplify_eq|].
  unfold transfer_rows. rewrite Hx. rewrite decide_False by lia.
  rewrite (first_inventory_insert_other p b inv i x); [by rewrite Hy|done|..];
    intros [_ Hw]; simpl in Hw; congruence.
Qed.

(** X10.  On a stock table in which no two rows share a (product,
    warehouse) pair, between two different warehouses that both hold a row
    for the product, a transfer of [q] units followed by a transfer of [q]
    units the other way puts the table back as it was, provided the first
    transfer is covered by the source and the destination count is not
    negative. *)
Theorem transfer_there_and_back id1 id2 data1 data2 s w1 w2 p q i src j dst :
  keys_unique (inventory (db s)) →
  reads_as_transfer data1 w1 w2 p q →
  reads_as_transfer data2 w2 w1 p q →
  w1 ≠ w2 →
  first_inventory p w1 (inventory (db s)) = Some (i, src) →
  first_inventory p w2 (inventory (db s)) = Some (j, dst) →
  q ≤ Inventory.quantity src →
  0 ≤ Inventory.quantity dst →
  inventory (db (transfer_inventory id2 data2
                   (transfer_inventory id1 data1 s).1).1)
  = inventory (db s).
Proof.
  intros _ Hd1 Hd2 Hne Hsrc Hdst Hle Hnn.
  destruct (transfer_rows_existing p w1 w2 q _ i src j dst Hne Hsrc Hdst Hle)
    as [Hij Hrows1].
  destruct (transfer_inventory_Return id1 _ s _ _ _ _ _ Hd1 Hrows1)
    as (Hdb1 & _ & _).
  set (s1 := (transfer_inventory id1 data1 s).1) in *.
  set (src' := Inventory.set_quantity (Inventory.quantity src - q) src) in *.
  set (dst' := Inventory.set_quantity (Inventory.quantity dst + q) dst) in *.
  apply first_inventory_Some in Hsrc as Hrs. destruct Hrs as [Hi [Hsp Hsw]].
  apply first_inventory_Some in Hdst as Hrd. destruct Hrd as [Hj [Hdp Hdw]].
  assert (first_inventory p w1 (inventory (db s1)) = Some (i, src')) as Hsrc1.
  { rewrite Hdb1. simpl.
    rewrite (first_inventory_insert_other p w1 _ j dst);
      [by apply first_inventory_insert_same with (r := src)
      |by rewrite list_lookup_insert_ne|..];
      intros [_ Hw]; simpl in Hw; congruence. }
  assert (first_inventory p w2 (inventory (db s1)) = Some (j, dst')) as Hdst1.
  { rewrite Hdb1. simpl.
    apply first_inventory_insert_same with (r := dst); [|done].
    rewrite (first_inventory_insert_other p w2 _ i src); [done|done|..];
      intros [_ Hw]; simpl in Hw; congruence. }
  assert (w2 ≠ w1) as Hne' by congruence.
  destruct (transfer_rows_existing p w2 w1 q _ j dst' i src' Hne' Hdst1 Hsrc1)
    as [_ Hrows2]; [simpl; lia|].
  destruct (transfer_inventory_Return id2 _ s1 _ _ _ _ _ Hd2 Hrows2)
    as (-> & _ & _).
  simpl. rewrite Hdb1. simpl.
  replace (Inventory.set_quantity (Inventory.quantity dst + q - q) dst')
    with dst
    by (destruct dst; unfold dst', Inventory.set_quantity; simpl; f_equal; lia).
  replace (Inventory.set_quantity (Inventory.quantity src - q + q) src')
    with src
    by (destruct src; unfold src', Inventory.set_quantity; simpl; f_equal; lia).
  rewrite list_insert_insert_eq.
  rewrite (list_insert_id (<[i := src']> (inventory (db s))) j dst)
    by (by rewrite list_lookup_insert_ne).
  rewrite list_insert_insert_eq. by apply list_insert_id.
Qed.

(** X11.  A transfer body that lacks one of the four keys makes the
    handler raise [KeyError] for the first key missing, in the order
    from_warehouse_id, to_warehouse_id, product_id, quantity; the error is
    not turned into a 400 answer and the state is untouched. *)
Theorem transfer_inventory_missing_key warehouse_id transfer_data s
    pre k post :
  transfer_keys = pre ++ k :: post →
  Forall (λ k', is_Some (transfer_data !! k')) pre →
  transfer_data !! k = None →
  transfer_inventory warehouse_id transfer_data s = (s, Raise (KeyError k)).
Proof.
  unfold transfer_keys, transfer_inventory, subscript. intros Hsplit Hpre Hk.
  destruct pre as [|k1 [|k2 [|k3 [|k4 pre]]]]; simplify_eq/=.
  - by rewrite Hk.
  - apply Forall_cons in Hpre as [[? ->] _]. simpl. by rewrite Hk.
  - apply Forall_cons in Hpre as [[? ->] [[? ->] _]%Forall_cons].
    simpl. by rewrite Hk.
  - apply Forall_cons in Hpre
      as [[? ->] [[? ->] [[? ->] _]%Forall_cons]%Forall_cons].
    simpl. by rewrite Hk.
  - by destruct pre.
Qed.
End TransferConservation.

(** ** Orders that are kept, orders that are not *)

Section OrdersKept.
Implicit Types (s : App) (order : OrderCreate.t) (d : Db).
Implicit Types (it : gmap string Z) (items : list (gmap string Z)).

Lemma process_item_Raise order_id w it d e :
  process_item order_id w it d = Raise e → loop_error e.
Proof.
  unfold process_item, subscript, loop_error.
  destruct (it !! "product_id") as [p|]; simpl; [|intros [= <-]; by left].
  destruct (it !! "quantity") as [q|]; simpl;
    [|intros [= <-]; right; by left].
  destruct (first_inventory p w (inventory d)) as [[i row]|];
    [case_decide|]; intros [= <-]; right; right; by exists p.
Qed.

Lemma process_items_Raise order_id w items d e :
  process_items order_id w items d = Raise e → loop_error e.
Proof.
  revert d. induction items as [|it items IH]; intros d; simpl; [done|].
  destruct (process_item order_id w it d) as [d1|e1] eqn:Hit; simpl.
  - apply IH.
  - intros [= <-]. by eapply process_item_Raise.
Qed.

Lemma process_item_malformed order_id w it d :
  malformed it → ∃ e, process_item order_id w it d = Raise e.
Proof.
  unfold malformed, process_item, subscript. intros [Hp|Hq].
  - rewrite Hp. by eexists.
  - destruct (it !! "product_id") as [p|]; simpl; [|by eexists].
    rewrite Hq. by eexists.
Qed.

Lemma process_items_malformed order_id w items d :
  Exists malformed items → ∃ e, process_items order_id w items d = Raise e.
Proof.
  intros Hex. revert d.
  induction Hex as [it items Hbad|it items _ IH]; intros d; simpl.
  - destruct (process_item_malformed order_id w it d Hbad) as [e ->].
    by exists e.
  - destruct (process_item order_id w it d) as [d1|e]; simpl; [|by eexists].
    apply IH.
Qed.

(** X12.  An order with an item that lacks [product_id] or [quantity] is
    never stored, wherever the item stands in the list: the request is
    rolled back and answered with a 400 that wraps the first error of the
    loop, a [KeyError] for one of the two keys or an insufficient-stock
    error. *)
Theorem create_order_malformed_item order s :
  Exists malformed (OrderCreate.items order) →
  ∃ e, create_order order s
       = (rolled_back s, Raise (HTTPException 400 (StrOf e)))
     ∧ loop_error e.
Proof.
  intros Hbad.
  destruct (process_items_malformed (orders_id_seq (db s))
              (OrderCreate.warehouse_id order) _ (flushed order (db s)) Hbad)
    as [e He].
  exists e. split; [by apply create_order_Raise|].
  by eapply process_items_Raise.
Qed.

Lemma handle_orders rq s :
  (orders (db (handle rq s)) = orders (db s)
   ∧ (orders_id_seq (db (handle rq s)) = orders_id_seq (db s)
      ∨ orders_id_seq (db (handle rq s)) = orders_id_seq (db s) + 1))
  ∨ ∃ order, rq = CreateOrder order
      ∧ orders (db (handle rq s))
        = orders (db s) ++ [completed_order order (db s)]
      ∧ orders_id_seq (db (handle rq s)) = orders_id_seq (db s) + 1.
Proof.
  destruct rq as [p u|order|w t]; simpl.
  - left. rewrite update_inventory_db. simpl. auto.
  - destruct (create_order_db order s) as [(e & _ & ->)|(d2 & Hloop & ->)].
    + left. simpl. auto.
    + right. exists order. split; [done|]. simpl. split; [done|].
      unfold reserve_all in Hloop.
      by destruct (process_items_orders _ _ _ _ _ Hloop) as [_ ->].
  - left.
    destruct (transfer_inventory_db w t s)
      as [->|(w1 & w2 & p & q & inv' & _ & _ & ->)]; simpl; auto.
Qed.

(** X13.  The orders table only grows, and only by completed orders:
    after any sequence of requests the orders stored before are still
    there, in place and unchanged, and every order added has the status
    COMPLETED; no order is ever left PENDING. *)
Theorem run_orders_append_only (rs : list request) s :
  ∃ new, orders (db (run rs s)) = orders (db s) ++ new
    ∧ Forall (λ o, Order.status o = "COMPLETED") new.
Proof.
  revert s. unfold run.
  induction rs as [|rq rs IH]; intros s; simpl.
  { exists []. by rewrite app_nil_r. }
  destruct (IH (handle rq s)) as (new & -> & Hnew).
  destruct (handle_orders rq s) as [[-> _]|(order & _ & -> & _)].
  - by exists new.
  - exists (completed_order order (db s) :: new).
    rewrite <-app_assoc. split; [done|]. by constructor.
Qed.

Lemma handle_order_ids_fresh rq s :
  order_ids_fresh (db s) → order_ids_fresh (db (handle rq s)).
Proof.
  intros [Hnd Hlt]. unfold order_ids_fresh.
  destruct (handle_orders rq s)
    as [[-> Hseq]|(order & _ & -> & ->)].
  - split; [done|]. eapply Forall_impl; [done|]. intros o Ho. simpl in Ho.
    destruct Hseq as [-> | ->]; lia.
  - split.
    + rewrite fmap_app. apply NoDup_app. split_and!; [done| |].
      * intros x (o & -> & Hin)%list_elem_of_fmap
          [Hx|[]%elem_of_nil]%elem_of_cons.
        rewrite Forall_forall in Hlt. specialize (Hlt o Hin).
        simpl in Hx. lia.
      * apply NoDup_singleton.
    + apply Forall_app. split.
      * eapply Forall_impl; [done|]. intros o Ho. simpl in Ho. lia.
      * repeat constructor. simpl. lia.
Qed.

(** X14.  Order ids stay distinct and below the next value of the
    sequence through every sequence of requests. *)
Theorem run_keeps_order_ids_fresh (rs : list request) s :
  order_ids_fresh (db s) → order_ids_fresh (db (run rs s)).
Proof.
  apply (run_invariant (λ s0, order_ids_fresh (db s0))).
  intros rq s0. apply handle_order_ids_fresh.
Qed.

Lemma get_order_fresh d s (o : Order.t) :
  Forall (λ o', Order.id o' < Order.id o) (orders d) →
  orders (db s) = orders d ++ [o] →
  get_order (Order.id o) s = Return o.
Proof.
  intros Hlt Hs. unfold get_order. rewrite Hs.
  rewrite list_find_app_r.
  - simpl. by rewrite decide_True.
  - apply list_find_None. eapply Forall_impl; [done|].
    intros o' Ho'. simpl in *. lia.
Qed.

(** X15.  The order that [create_order] returns can be fetched: with order
    ids fresh before the request, [get_order] on the id of the returned
    order gives that very order, with status COMPLETED. *)
Theorem get_order_after_create order s o :
  order_ids_fresh (db s) →
  (create_order order s).2 = Return o →
  get_order (Order.id o) (create_order order s).1 = Return o
  ∧ Order.status o = "COMPLETED".
Proof.
  intros [_ Hlt] Hret.
  destruct (create_order_db order s) as [(e & _ & Hrej)|(d2 & Hloop & Hdb)].
  { rewrite Hrej in Hret. done. }
  destruct (create_order_Return order s d2 Hloop)
    as (_ & _ & _ & _ & [Hok|[e He]] & _); rewrite Hret in *; [|done].
  injection Hok as ->. split; [|done].
  apply (get_order_fresh (db s)); [done|]. by rewrite Hdb.
Qed.

(** X16.  When no connected observer is closed, an error answer of
    [create_order] means that nothing was stored: the orders table is as
    before and [get_order] on the id the request consumed is a 404. *)
Theorem get_order_after_rejection order s e :
  order_ids_fresh (db s) →
  connected_clients s ## closed s →
  (create_order order s).2 = Raise e →
  orders (db (create_order order s).1) = orders (db s)
  ∧ get_order (orders_id_seq (db s)) (create_order order s).1
    = Raise (HTTPException 404 (Text "Order not found")).
Proof.
  intros [_ Hlt] Hdisj Hret.
  destruct (create_order_db order s) as [(e0 & _ & Hrej)|(d2 & Hloop & _)].
  - rewrite Hrej. simpl. split; [done|]. unfold get_order. simpl.
    rewrite (proj2 (list_find_None _ _)); [done|].
    eapply Forall_impl; [done|]. intros o Ho. simpl in *. lia.
  - destruct (create_order_Return order s d2 Hloop)
      as (_ & _ & _ & _ & _ & Hok).
    rewrite (Hok Hdisj) in Hret. done.
Qed.
End OrdersKept.

(** ** Products *)

Section Products.
Implicit Types (c : Catalog) (product : ProductCreate.t) (u : User.t).

Lemma get_product_app c c' (p : Product.t) :
  Forall (λ p', Product.id p' < Product.id p) (products c) →
  products c' = products c ++ [p] →
  get_product (Product.id p) c' = inr p
  ∧ ∀ id p0, get_product id c = inr p0 → get_product id c' = inr p0.
Proof.
  intros Hlt Hc'. unfold get_product. rewrite Hc'. split.
  - rewrite list_find_app_r.
    + simpl. by rewrite decide_True.
    + apply list_find_None. eapply Forall_impl; [done|].
      intros p' Hp'. simpl in *. lia.
  - intros id p0.
    destruct (list_find _ (products c)) as [[i x]|] eqn:Hf; [|done].
    intros [= ->]. by rewrite (list_find_app_l _ _ _ _ _ Hf).
Qed.

(** X17.  A product that [create_product] returns can be fetched by the id
    it was given, and every product that could be fetched before still
    can, with the same content. *)
Theorem get_product_after_create product c u p :
  product_ids_fresh c →
  (create_product product c u).2 = inr p →
  get_product (Product.id p) (create_product product c u).1 = inr p
  ∧ ∀ id p0, get_product id c = inr p0 →
             get_product id (create_product product c u).1 = inr p0.
Proof.
  intros [_ Hlt]. unfold create_product. case_decide; [done|].
  simpl. intros [= <-]. by apply (get_product_app c).
Qed.

(** X18.  No two stored products share a SKU, and ids stay fresh: a
    request whose SKU is already stored ends in [IntegrityError] and stores
    nothing, any other request stores exactly the product it returns. *)
Theorem create_product_keeps_sku_unique product c u :
  NoDup (Product.sku <$> products c) →
  product_ids_fresh c →
  let r := create_product product c u in
  NoDup (Product.sku <$> products r.1)
  ∧ product_ids_fresh r.1
  ∧ match r.2 with
    | inl f =>
        f = IntegrityError ∧ products r.1 = products c
        ∧ ProductCreate.sku product ∈ Product.sku <$> products c
    | inr p =>
        products r.1 = products c ++ [p]
        ∧ Product.sku p = ProductCreate.sku product
        ∧ ProductCreate.sku product ∉ Product.sku <$> products c
    end.
Proof.
  intros Hsku [Hnd Hlt]. unfold create_product, product_ids_fresh.
  case_decide as Hclash; simpl.
  - split; [done|]. split.
    + split; [done|]. eapply Forall_impl; [done|]. intros p Hp.
      simpl in Hp. lia.
    + split_and!; [done..|].
      apply Exists_exists in Hclash as (p & Hin & <-).
      apply list_elem_of_fmap. by exists p.
  - assert (ProductCreate.sku product ∉ Product.sku <$> products c) as Hnew.
    { intros (p & Hp & Hin)%list_elem_of_fmap. apply Hclash.
      apply Exists_exists. by exists p. }
    split_and!; [| | |done..].
    + rewrite fmap_app. apply NoDup_app. split_and!; [done| |].
      * intros x Hx [->|[]%elem_of_nil]%elem_of_cons. done.
      * apply NoDup_singleton.
    + rewrite fmap_app. apply NoDup_app. split_and!; [done| |].
      * intros x (p & -> & Hin)%list_elem_of_fmap
          [Hx|[]%elem_of_nil]%elem_of_cons.
        rewrite Forall_forall in Hlt. specialize (Hlt p Hin).
        simpl in Hx. lia.
      * apply NoDup_singleton.
    + apply Forall_app. split.
      * eapply Forall_impl; [done|]. intros p Hp. simpl in Hp. lia.
      * repeat constructor. simpl. lia.
Qed.
End Products.

(** ** Accounts and tokens *)

Section Authentication.
Context `{Libraries}.
Implicit Types (a : Accounts) (user : UserCreate.t).

Lemma create_user_stores user salt a a' reply :
  create_user user salt a = (a', inr reply) →
  reply = user
  ∧ users a' = users a ++ [stored_user user salt a]
  ∧ list_find (λ u, User.username u = UserCreate.username user) (users a')
    = Some (length (users a), stored_user user salt a).
Proof.
  unfold create_user. case_decide as Hclash; [done|].
  intros [= <- <-]. simpl. split; [done|]. split; [done|].
  rewrite list_find_app_r.
  - simpl. by rewrite decide_True.
  - apply list_find_None, Forall_forall. intros u Hin Hu.
    apply Hclash, Exists_exists. exists u. split; [done|]. by left.
Qed.

(** Registration keeps every stored hash one that the library made. *)
Lemma create_user_keeps_hashes_made user salt a :
  hashes_made a → hashes_made (create_user user salt a).1.
Proof.
  intros Hmade. unfold create_user, hashes_made in *.
  case_decide; simpl; [done|].
  apply Forall_app. split; [done|]. repeat constructor. simpl.
  by exists salt, (UserCreate.password user).
Qed.

(** X19.  On a users table whose stored hashes were all made by the
    library, [login] has two answers only: a bearer token when the first
    user with the given name exists and the password verifies against that
    user's stored hash, the token naming the user and expiring 30 minutes
    after the call; or one and the same 401, given both when no user has
    the name and when the password does not verify. *)
Theorem login_answers form_data now a :
  hashes_made a →
  match login form_data now a with
  | inr token =>
      ∃ i (acct : User.t),
        list_find (λ u, User.username u = LoginForm.username form_data)
          (users a) = Some (i, acct)
        ∧ pwd_verify (LoginForm.password form_data)
            (User.hashed_password acct) = true
        ∧ token
          = Token.mk
              (jwt_encode (Claims.mk (Some (LoginForm.username form_data))
                             (Some (now + 30 * 60))))
              "bearer"
  | inl f =>
      f = incorrect_login
      ∧ (list_find (λ u, User.username u = LoginForm.username form_data)
           (users a) = None
         ∨ ∃ i (acct : User.t),
             list_find (λ u, User.username u = LoginForm.username form_data)
               (users a) = Some (i, acct)
             ∧ pwd_verify (LoginForm.password form_data)
                 (User.hashed_password acct) = false)
  end.
Proof.
  intros _. unfold login, verify_password, create_access_token.
  destruct (list_find _ (users a)) as [[i acct]|] eqn:Hf; [|by split; [|left]].
  destruct (pwd_verify _ _) eqn:Hv.
  - exists i, acct. split_and!; [done..|].
    apply list_find_Some in Hf as (_ & -> & _). done.
  - split; [done|]. right. by exists i, acct.
Qed.

(** X20.  [get_current_user] returns a user only when the token decodes
    at the time of the call and carries a subject, and the user returned is
    the first stored user of that name; every other case is the same 401,
    given when the token does not decode, has no subject, or names nobody
    stored. *)
Theorem get_current_user_answers token now a :
  match get_current_user token now a with
  | inr acct =>
      ∃ payload i,
        jwt_decode now token = Some payload
        ∧ Claims.sub payload = Some (User.username acct)
        ∧ users a !! i = Some acct
        ∧ ∀ j (u : User.t),
            users a !! j = Some u →
            User.username u = User.username acct → (i ≤ j)%nat
  | inl f =>
      f = credentials_exception
      ∧ (jwt_decode now token = None
         ∨ ∃ payload,
             jwt_decode now token = Some payload
             ∧ (Claims.sub payload = None
                ∨ ∃ name, Claims.sub payload = Some name
                    ∧ Forall (λ u, User.username u ≠ name) (users a)))
  end.
Proof.
  unfold get_current_user.
  destruct (jwt_decode now token) as [payload|] eqn:Hd; [|by split; [|left]].
  destruct (Claims.sub payload) as [username|] eqn:Hs.
  2:{ split; [done|]. right. exists payload. split; [done|]. by left. }
  destruct (list_find _ (users a)) as [[i acct]|] eqn:Hf.
  - apply list_find_Some in Hf as (Hi & <- & Hleast).
    exists payload, i. split_and!; [done..|].
    intros j u Hj Hu. destruct (decide (i ≤ j)%nat) as [|Hlt]; [done|].
    exfalso. apply (Hleast j u Hj); [lia|done].
  - split; [done|]. right. exists payload. split; [done|]. right.
    exists username. split; [done|]. by apply list_find_None in Hf.
Qed.

(** X21.  Register, log in, authenticate: when the library verifies a
    password against the hash it has just made of it and decodes the token
    it has just issued, a user whose registration went through can log in
    with the same name and password, and the token obtained is resolved by
    [get_current_user] to the account that was stored. *)
Theorem register_login_authenticate user salt a a' reply now now' :
  create_user user salt a = (a', inr reply) →
  pwd_verify (UserCreate.password user)
    (pwd_hash salt (UserCreate.password user)) = true →
  jwt_decode now'
    (jwt_encode (Claims.mk (Some (UserCreate.username user))
                   (Some (now + 30 * 60))))
  = Some (Claims.mk (Some (UserCreate.username user)) (Some (now + 30 * 60))) →
  ∃ token,
    login (LoginForm.mk (UserCreate.username user) (UserCreate.password user))
      now a' = inr token
    ∧ get_current_user (Token.access_token token) now' a'
      = inr (stored_user user salt a)
    ∧ stored_user user salt a ∈ users a'.
Proof.
  intros Hreg Hverify Hjwt.
  destruct (create_user_stores _ _ _ _ _ Hreg) as (_ & Husers & Hfind).
  eexists. split_and!.
  - unfold login. simpl. rewrite Hfind. unfold verify_password. simpl.
    unfold get_password_hash. rewrite Hverify. done.
  - unfold get_current_user, create_access_token. simpl.
    change (ACCESS_TOKEN_EXPIRE_MINUTES * 60) with (30 * 60).
    rewrite Hjwt. simpl. by rewrite Hfind.
  - rewrite Husers. apply elem_of_app. right. by left.
Qed.

(** X22.  User names and e-mail addresses stay unique: a registration
    that would repeat one ends in [IntegrityError] and stores nothing; one
    that goes through stores a single account, active and not admin, with
    the hash of the password in place of the password. *)
Theorem create_user_keeps_names_unique user salt a :
  NoDup (User.username <$> users a) →
  NoDup (User.email <$> users a) →
  let r := create_user user salt a in
  NoDup (User.username <$> users r.1)
  ∧ NoDup (User.email <$> users r.1)
  ∧ match r.2 with
    | inl f => f = IntegrityError ∧ users r.1 = users a
    | inr _ =>
        users r.1 = users a ++ [stored_user user salt a]
        ∧ User.hashed_password (stored_user user salt a)
          = pwd_hash salt (UserCreate.password user)
    end.
Proof.
  intros Hname Hmail. unfold create_user. case_decide as Hclash; simpl.
  { done. }
  assert (∀ u, u ∈ users a →
            User.username u ≠ UserCreate.username user
            ∧ User.email u ≠ UserCreate.email user) as Hnew.
  { intros u Hin. split; intros Heq; apply Hclash, Exists_exists;
      exists u; (split; [done|]); [by left|by right]. }
  split_and!; [| |done..].
  - rewrite fmap_app. apply NoDup_app. split_and!; [done| |].
    + intros x (u & -> & Hin)%list_elem_of_fmap
        [Hx|[]%elem_of_nil]%elem_of_cons.
      by destruct (Hnew u Hin).
    + apply NoDup_singleton.
  - rewrite fmap_app. apply NoDup_app. split_and!; [done| |].
    + intros x (u & -> & Hin)%list_elem_of_fmap
        [Hx|[]%elem_of_nil]%elem_of_cons.
      by destruct (Hnew u Hin).
    + apply NoDup_singleton.
Qed.
End Authentication.

(** * Concrete runs *)

(** A dict lookup in a hypothesis is settled by evaluation. *)
Ltac eval_lookup H := vm_compute in H; simplify_eq.

Ltac nonneg_items :=
  repeat constructor;
  let q := fresh "q" in
  let Hq := fresh "Hq" in
  intros q Hq; eval_lookup Hq; lia.

Section Counterexamples.

(** C1 as stated fails: a level-set to a negative quantity, an order for a
    negative number of units, and a transfer of a negative number of
    units each leave a negative count behind. *)
Lemma negative_amount_counterexample :
  ¬ ledger_ok (run [UpdateInventory 1 (InventoryUpdate.mk 1 (-1) 0)]
                 empty_app)
  ∧ (ledger_ok (stocked [Inventory.mk 1 1 5 0 0])
     ∧ ¬ ledger_ok (run [CreateOrder (OrderCreate.mk 7 1 [item 1 (-2)])]
                      (stocked [Inventory.mk 1 1 5 0 0])))
  ∧ (ledger_ok (stocked [Inventory.mk 1 1 5 0 0])
     ∧ ¬ ledger_ok (run [TransferInventory 1 (transfer_body 1 2 1 (-3))]
                      (stocked [Inventory.mk 1 1 5 0 0]))).
Proof.
  assert (ledger_ok (stocked [Inventory.mk 1 1 5 0 0])) as Hok.
  { repeat constructor; simpl; lia. }
  split_and!; try done.
  - intros [[Hq _] _]%Forall_cons. vm_compute in Hq. done.
  - intros [[_ Hr] _]%Forall_cons. vm_compute in Hr. done.
  - intros [_ [[Hq _] _]%Forall_cons]%Forall_cons. vm_compute in Hq. done.
Qed.

(** C2 as stated fails: the second item asks for 3 units of a product of
    which the warehouse holds none, yet the order completes, because the
    first item, for -5 units, has just added 5. *)
Lemma negative_item_counterexample :
  let s := stocked [Inventory.mk 1 1 0 0 0] in
  let order := OrderCreate.mk 7 1 [item 1 (-5); item 1 3] in
  some_short 1 (OrderCreate.items order) (inventory (db s))
  ∧ (create_order order s).2 = Return (Order.mk 1 7 "COMPLETED" 1)
  ∧ inventory (db (create_order order s).1) = [Inventory.mk 1 1 2 (-2) 0].
Proof.
  simpl. split_and!; [|by vm_compute..].
  exists (item 1 3), 1, 3. split_and!; [|by vm_compute..].
  apply list_elem_of_In. simpl. auto.
Qed.

(** C3 as stated fails twice.  A transfer from a warehouse to itself
    succeeds and leaves the quantity where it was; and with a closed
    socket among the observers a transfer that has been committed is
    answered with an error. *)
Lemma transfer_counterexample :
  (let s := stocked [Inventory.mk 1 1 10 0 0] in
   let r := transfer_inventory 1 (transfer_body 1 1 1 5) s in
   r.2 = Return transfer_completed
   ∧ inventory (db r.1) = [Inventory.mk 1 1 10 0 0])
  ∧ (let s := observed [Inventory.mk 1 1 10 0 0] [4%nat] [4%nat] in
     let r := transfer_inventory 1 (transfer_body 1 2 1 10) s in
     r.2 = Raise (HTTPException 400 (StrOf (SendError 4)))
     ∧ inventory (db r.1)
       = [Inventory.mk 1 1 0 0 0; Inventory.mk 1 2 10 0 0]).
Proof. simpl. split_and!; by vm_compute. Qed.

(** C4 as stated fails: each of the two items finds 5 units, which is
    enough for its 3, and the order is rejected; the message of a
    completed order is of type [order_created]; and with a closed socket
    among the observers a committed order is answered with an error. *)
Lemma create_order_counterexample :
  (let s := stocked [Inventory.mk 1 1 5 0 0] in
   let order := OrderCreate.mk 7 1 [item 1 3; item 1 3] in
   Forall (in_stock 1 (inventory (db s))) [(1, 3); (1, 3)]
   ∧ create_order order s
     = (rolled_back s,
        Raise (HTTPException 400 (StrOf (insufficient_stock 1)))))
  ∧ (let s := stocked [Inventory.mk 1 1 5 0 0] in
     let r := create_order (OrderCreate.mk 7 1 [item 1 3]) s in
     r.2 = Return (Order.mk 1 7 "COMPLETED" 1)
     ∧ broadcasts r.1
       = [[("type", JStr "order_created"); ("order_id", JInt 1);
           ("status", JStr "COMPLETED")]])
  ∧ (let s := observed [Inventory.mk 1 1 5 0 0] [4%nat] [4%nat] in
     let r := create_order (OrderCreate.mk 7 1 [item 1 3]) s in
     r.2 = Raise (HTTPException 400 (StrOf (SendError 4)))
     ∧ orders (db r.1) = [Order.mk 1 7 "COMPLETED" 1]).
Proof.
  simpl. split_and!; try by vm_compute.
  repeat constructor; exists 0%nat, (Inventory.mk 1 1 5 0 0);
    (split; [by vm_compute|simpl; lia]).
Qed.

(** C5 as stated fails: a transfer of -3 units and a reservation of -2
    units are both carried out. *)
Lemma nonpositive_amount_counterexample :
  (let s := stocked [Inventory.mk 1 1 5 0 0; Inventory.mk 1 2 5 0 0] in
   let r := transfer_inventory 1 (transfer_body 1 2 1 (-3)) s in
   r.2 = Return transfer_completed
   ∧ inventory (db r.1)
     = [Inventory.mk 1 1 8 0 0; Inventory.mk 1 2 2 0 0])
  ∧ (let s := stocked [Inventory.mk 1 1 5 0 0] in
     let r := create_order (OrderCreate.mk 7 1 [item 1 (-2)]) s in
     r.2 = Return (Order.mk 1 7 "COMPLETED" 1)
     ∧ inventory (db r.1) = [Inventory.mk 1 1 7 (-2) 0]).
Proof. simpl. split_and!; by vm_compute. Qed.

(** C6 as stated fails: after a rejected request the [orders] table holds
    no order at all, let alone one in a REJECTED state. *)
Lemma rejected_order_counterexample :
  let s := stocked [Inventory.mk 1 1 2 0 0; Inventory.mk 2 1 1 0 0] in
  let r := create_order (OrderCreate.mk 7 1 [item 1 2; item 2 100]) s in
  r.2 = Raise (HTTPException 400 (StrOf (insufficient_stock 2)))
  ∧ orders (db r.1) = []
  ∧ ¬ ∃ o, o ∈ orders (db r.1) ∧ Order.status o = "REJECTED".
Proof.
  simpl. split_and!; [by vm_compute..|].
  intros (o & Hin & _). vm_compute in Hin. by apply elem_of_nil in Hin.
Qed.

(** C9 as stated fails: observer 2 is closed and comes first; the
    broadcast raises there, observer 2 stays in the set, and observer 1,
    which is open, receives nothing. *)
Lemma broadcast_counterexample :
  let s := observed [] [1%nat; 2%nat] [2%nat] in
  let r := notify_clients (order_created 1) s in
  elements (connected_clients s) = [2%nat; 1%nat]
  ∧ (1%nat ∉ closed s)
  ∧ r.2 = Raise (SendError 2)
  ∧ connected_clients r.1 = connected_clients s
  ∧ delivered r.1 = [].
Proof.
  simpl. split_and!; by vm_compute.
Qed.
End Counterexamples.

Section Witnesses.

Lemma run_keeps_stock_nonneg_witness :
  let rs := [UpdateInventory 1 (InventoryUpdate.mk 1 10 3);
             CreateOrder (OrderCreate.mk 7 1 [item 1 2]);
             TransferInventory 1 (transfer_body 1 2 1 5)] in
  ledger_ok empty_app
  ∧ Forall nonneg_request rs
  ∧ ledger_ok (run rs empty_app).
Proof.
  simpl.
  assert (ledger_ok empty_app) as Hok by constructor.
  assert (Forall nonneg_request
            [UpdateInventory 1 (InventoryUpdate.mk 1 10 3);
             CreateOrder (OrderCreate.mk 7 1 [item 1 2]);
             TransferInventory 1 (transfer_body 1 2 1 5)]) as Hrs.
  { apply Forall_cons. split; [simpl; lia|].
    apply Forall_cons. split; [simpl; nonneg_items|].
    apply Forall_cons. split; [|constructor].
    simpl. intros q Hq. eval_lookup Hq. lia. }
  split_and!; [done..|].
  exact (run_keeps_stock_nonneg _ _ Hok Hrs).
Defined.

(** The example of the specification: 2 units of product 1 and 1 unit of
    product 2 in stock, an order for 2 and 100. *)
Lemma create_order_all_or_nothing_witness :
  let s := stocked [Inventory.mk 1 1 2 0 0; Inventory.mk 2 1 1 0 0] in
  let order := OrderCreate.mk 7 1 [item 1 2; item 2 100] in
  Forall nonneg_item (OrderCreate.items order)
  ∧ some_short 1 (OrderCreate.items order) (inventory (db s))
  ∧ (∃ e, (create_order order s).2 = Raise (HTTPException 400 (StrOf e)))
  ∧ inventory (db (create_order order s).1) = inventory (db s)
  ∧ orders (db (create_order order s).1) = [].
Proof.
  cbv zeta.
  set (s := stocked [Inventory.mk 1 1 2 0 0; Inventory.mk 2 1 1 0 0]).
  set (order := OrderCreate.mk 7 1 [item 1 2; item 2 100]).
  assert (Forall nonneg_item (OrderCreate.items order)) as Hnn
    by (simpl; nonneg_items).
  assert (some_short 1 (OrderCreate.items order) (inventory (db s)))
    as Hshort.
  { exists (item 2 100), 2, 100. split_and!; [|by vm_compute..].
    apply list_elem_of_In. simpl. auto. }
  destruct (create_order_all_or_nothing order s Hnn Hshort)
    as (Hrej & _ & Hinv & Hord & _).
  split; [exact Hnn|]. split; [exact Hshort|]. split; [exact Hrej|].
  split; [exact Hinv|exact Hord].
Defined.

(** The examples of the specification: 10 units moved out of a warehouse
    that holds 10, and 11 units refused. *)
Lemma transfer_inventory_moves_stock_witness :
  let s := stocked [Inventory.mk 1 1 10 0 4] in
  reads_as_transfer (transfer_body 1 2 1 10) 1 2 1 10
  ∧ reads_as_transfer (transfer_body 1 2 1 11) 1 2 1 11
  ∧ (let r := transfer_inventory 1 (transfer_body 1 2 1 10) s in
     first_inventory 1 1 (inventory (db r.1))
     = Some (0%nat, Inventory.mk 1 1 0 0 4)
     ∧ first_inventory 1 2 (inventory (db r.1))
       = Some (1%nat, Inventory.mk 1 2 10 0 4)
     ∧ broadcasts r.1 = [inventory_transfer 1 1 2 10]
     ∧ r.2 = Return transfer_completed)
  ∧ transfer_inventory 1 (transfer_body 1 2 1 11) s
    = (s, Raise (HTTPException 400 (StrOf insufficient_inventory))).
Proof.
  simpl.
  assert (reads_as_transfer (transfer_body 1 2 1 10) 1 2 1 10) as H10
    by (split_and!; by vm_compute).
  assert (reads_as_transfer (transfer_body 1 2 1 11) 1 2 1 11) as H11
    by (split_and!; by vm_compute).
  destruct (transfer_inventory_moves_stock 1 _
              (stocked [Inventory.mk 1 1 10 0 4]) _ _ _ _ H10)
    as [Hmove _].
  destruct (Hmove 0%nat (Inventory.mk 1 1 10 0 4))
    as (Hsrc & Hdst & Hbc & Hret);
    [by vm_compute|simpl; lia|lia|].
  destruct (transfer_inventory_moves_stock 1 _
              (stocked [Inventory.mk 1 1 10 0 4]) _ _ _ _ H11)
    as [_ Hfail].
  split; [exact H10|]. split; [exact H11|]. split.
  - split; [rewrite Hsrc; reflexivity|].
    split; [rewrite Hdst; reflexivity|].
    split; [exact Hbc|].
    apply Hret. by vm_compute.
  - apply Hfail. unfold short_of. simpl. lia.
Defined.

Lemma create_order_completes_witness :
  let s := stocked [Inventory.mk 1 1 2 0 0; Inventory.mk 2 1 1 0 0] in
  let order := OrderCreate.mk 7 1 [item 1 2; item 2 1] in
  let pqs := [(1, 2); (2, 1)] in
  Forall2 reads_as (OrderCreate.items order) pqs
  ∧ NoDup pqs.*1
  ∧ Forall (in_stock 1 (inventory (db s))) pqs
  ∧ orders (db (create_order order s).1) = [Order.mk 1 7 "COMPLETED" 1]
  ∧ first_inventory 1 1 (inventory (db (create_order order s).1))
    = Some (0%nat, Inventory.mk 1 1 0 2 0)
  ∧ broadcasts (create_order order s).1 = [order_created 1]
  ∧ (create_order order s).2 = Return (Order.mk 1 7 "COMPLETED" 1).
Proof.
  simpl.
  assert (Forall2 reads_as [item 1 2; item 2 1] [(1, 2); (2, 1)]) as Hread.
  { repeat constructor. }
  assert (NoDup [(1, 2); (2, 1)].*1) as Hnd.
  { simpl. repeat constructor; rewrite ?list_elem_of_In; simpl; intuition lia. }
  assert (Forall (in_stock 1 [Inventory.mk 1 1 2 0 0; Inventory.mk 2 1 1 0 0])
            [(1, 2); (2, 1)]) as Hstock.
  { apply Forall_cons. split.
    - exists 0%nat, (Inventory.mk 1 1 2 0 0). split; [by vm_compute|simpl; lia].
    - apply Forall_cons. split; [|constructor].
      exists 1%nat, (Inventory.mk 2 1 1 0 0). split; [by vm_compute|simpl; lia]. }
  split_and!; [done..| | | |];
    destruct (create_order_completes
                (OrderCreate.mk 7 1 [item 1 2; item 2 1])
                (stocked [Inventory.mk 1 1 2 0 0; Inventory.mk 2 1 1 0 0])
                _ Hread Hnd Hstock)
      as (Hord & _ & _ & Hrows & Hbc & Hret).
  - exact Hord.
  - apply (Hrows 1 2 0%nat (Inventory.mk 1 1 2 0 0)); [|by vm_compute].
    apply list_elem_of_In. simpl. auto.
  - exact Hbc.
  - apply Hret. by vm_compute.
Defined.

Lemma nonpositive_amount_only_stock_checked_witness :
  let s := stocked [Inventory.mk 1 1 5 0 0; Inventory.mk 1 2 5 0 0] in
  let r := transfer_inventory 1 (transfer_body 1 2 1 (-3)) s in
  -3 ≤ 0
  ∧ reads_as_transfer (transfer_body 1 2 1 (-3)) 1 2 1 (-3)
  ∧ first_inventory 1 1 (inventory (db s))
    = Some (0%nat, Inventory.mk 1 1 5 0 0)
  ∧ first_inventory 1 1 (inventory (db r.1))
    = Some (0%nat, Inventory.mk 1 1 8 0 0)
  ∧ first_inventory 1 2 (inventory (db r.1))
    = Some (1%nat, Inventory.mk 1 2 2 0 0)
  ∧ broadcasts r.1 = broadcasts s ++ [inventory_transfer 1 1 2 (-3)]
  ∧ r.2 = Return transfer_completed.
Proof.
  cbv zeta.
  set (s := stocked [Inventory.mk 1 1 5 0 0; Inventory.mk 1 2 5 0 0]).
  assert (-3 ≤ 0) as Hamount by lia.
  assert (reads_as_transfer (transfer_body 1 2 1 (-3)) 1 2 1 (-3)) as Hread
    by (split_and!; by vm_compute).
  assert (first_inventory 1 1 (inventory (db s))
          = Some (0%nat, Inventory.mk 1 1 5 0 0)) as Hsrc by (by vm_compute).
  destruct (nonpositive_amount_only_stock_checked (-3) Hamount)
    as [_ Htransfer].
  destruct (Htransfer 1 _ s _ _ _ Hread) as [_ Hdone].
  destruct (Hdone 0%nat (Inventory.mk 1 1 5 0 0) Hsrc)
    as (Hmove & _ & _ & _ & Hbc & Hret); [simpl; lia|].
  destruct Hmove as [Hfrom Hto]; [lia|].
  split; [exact Hamount|]. split; [exact Hread|]. split; [exact Hsrc|].
  split; [rewrite Hfrom; reflexivity|].
  split; [rewrite Hto; reflexivity|].
  split; [exact Hbc|].
  apply Hret. intros c _ Hc. simpl in Hc. by apply not_elem_of_empty in Hc.
Defined.

Lemma create_order_rejection_cause_witness :
  let s := stocked [Inventory.mk 1 1 2 0 0; Inventory.mk 2 1 1 0 0] in
  let order := OrderCreate.mk 7 1 [item 1 2; item 2 100] in
  let d' := mkDb [Inventory.mk 1 1 0 2 0; Inventory.mk 2 1 1 0 0]
              [Order.mk 1 7 "PENDING" 1] [OrderItem.mk 1 1 2] 2 in
  OrderCreate.items order = [item 1 2] ++ item 2 100 :: []
  ∧ process_items 1 1 [item 1 2] (flushed order (db s)) = Return d'
  ∧ process_item 1 1 (item 2 100) d' = Raise (insufficient_stock 2)
  ∧ create_order order s
    = (rolled_back s,
       Raise (HTTPException 400 (StrOf (insufficient_stock 2))))
  ∧ orders (db (create_order order s).1) = [].
Proof.
  cbv zeta.
  set (s := stocked [Inventory.mk 1 1 2 0 0; Inventory.mk 2 1 1 0 0]).
  set (order := OrderCreate.mk 7 1 [item 1 2; item 2 100]).
  set (d' := mkDb [Inventory.mk 1 1 0 2 0; Inventory.mk 2 1 1 0 0]
               [Order.mk 1 7 "PENDING" 1] [OrderItem.mk 1 1 2] 2).
  assert (OrderCreate.items order = [item 1 2] ++ item 2 100 :: [])
    as Hitems by reflexivity.
  assert (process_items 1 1 [item 1 2] (flushed order (db s)) = Return d')
    as Hpre by (by vm_compute).
  assert (process_item 1 1 (item 2 100) d' = Raise (insufficient_stock 2))
    as Hbad by (by vm_compute).
  destruct (create_order_rejection_cause order s [item 1 2] (item 2 100) []
              d' (insufficient_stock 2) Hitems Hpre Hbad)
    as (Hrej & Hord & _).
  split; [exact Hitems|]. split; [exact Hpre|]. split; [exact Hbad|].
  split; [exact Hrej|exact Hord].
Defined.

Lemma reserve_then_release_witness :
  let d := mkDb [Inventory.mk 1 1 5 0 0] [] [] 1 in
  let d' := mkDb [Inventory.mk 1 1 3 2 0] [] [OrderItem.mk 1 1 2] 1 in
  item 1 2 !! "product_id" = Some 1
  ∧ item 1 2 !! "quantity" = Some 2
  ∧ (∀ i row, first_inventory 1 1 (inventory d) = Some (i, row) →
              0 ≤ Inventory.reserved_quantity row)
  ∧ process_item 1 1 (item 1 2) d = Return d'
  ∧ Ledger.release 1 1 2 (inventory d') = inr (inventory d).
Proof.
  cbv zeta.
  set (d := mkDb [Inventory.mk 1 1 5 0 0] [] [] 1).
  set (d' := mkDb [Inventory.mk 1 1 3 2 0] [] [OrderItem.mk 1 1 2] 1).
  assert (item 1 2 !! "product_id" = Some 1) as Hp by (by vm_compute).
  assert (item 1 2 !! "quantity" = Some 2) as Hq by (by vm_compute).
  assert (∀ i row, first_inventory 1 1 (inventory d) = Some (i, row) →
                   0 ≤ Inventory.reserved_quantity row) as Hres.
  { intros i row Hf. vm_compute in Hf. injection Hf as <- <-. simpl. lia. }
  assert (process_item 1 1 (item 1 2) d = Return d') as Hstep
    by (by vm_compute).
  split; [exact Hp|]. split; [exact Hq|]. split; [exact Hres|].
  split; [exact Hstep|].
  exact (reserve_then_release 1 1 (item 1 2) d d' 1 2 Hp Hq Hres Hstep).
Defined.

Lemma broadcast_after_disconnect_witness :
  let s := observed [] [1%nat; 2%nat; 3%nat] [] in
  let m := order_created 1 in
  let s1 := (websocket_endpoint_except 2 (peer_close 2 s)).1 in
  let r := notify_clients m s1 in
  2%nat ∈ connected_clients s
  ∧ (connected_clients s ∖ {[2%nat]}) ## closed s
  ∧ r.2 = Return tt
  ∧ (1%nat, m) ∈ delivered r.1
  ∧ (3%nat, m) ∈ delivered r.1.
Proof.
  cbv zeta.
  set (s := observed [] [1%nat; 2%nat; 3%nat] []).
  assert (2%nat ∈ connected_clients s) as Hin by (by vm_compute).
  assert ((connected_clients s ∖ {[2%nat]}) ## closed s) as Hdisj.
  { intros c _ Hc. simpl in Hc. by apply not_elem_of_empty in Hc. }
  destruct (broadcast_after_disconnect 2 (order_created 1) s Hin Hdisj)
    as (_ & Hret & _ & Hall).
  split; [exact Hin|]. split; [exact Hdisj|]. split; [exact Hret|].
  split; apply Hall; by vm_compute.
Defined.

Lemma create_order_conserves_stock_witness :
  let s := stocked [Inventory.mk 1 1 2 0 0; Inventory.mk 2 1 1 0 0;
                    Inventory.mk 3 1 9 4 0] in
  let order := OrderCreate.mk 7 1 [item 1 2; item 2 1] in
  (create_order order s).2 = Return (Order.mk 1 7 "COMPLETED" 1)
  ∧ length (inventory (db (create_order order s).1)) = 3%nat
  ∧ ∀ i r, inventory (db s) !! i = Some r →
      ∃ r', inventory (db (create_order order s).1) !! i = Some r'
        ∧ Inventory.product_id r' = Inventory.product_id r
        ∧ Inventory.warehouse_id r' = Inventory.warehouse_id r
        ∧ Inventory.quantity r' + Inventory.reserved_quantity r'
          = Inventory.quantity r + Inventory.reserved_quantity r
        ∧ (untouched 1 (OrderCreate.items order) r → r' = r).
Proof.
  cbv zeta.
  set (s := stocked [Inventory.mk 1 1 2 0 0; Inventory.mk 2 1 1 0 0;
                     Inventory.mk 3 1 9 4 0]).
  set (order := OrderCreate.mk 7 1 [item 1 2; item 2 1]).
  assert ((create_order order s).2 = Return (Order.mk 1 7 "COMPLETED" 1))
    as Hdone by (by vm_compute).
  destruct (create_order_conserves_stock order s _ Hdone) as [Hlen Hrows].
  split; [exact Hdone|]. split; [exact Hlen|exact Hrows].
Defined.
End Witnesses.

Section FurtherWitnesses.

Lemma run_keeps_keys_unique_witness :
  let rs := [UpdateInventory 1 (InventoryUpdate.mk 1 10 3);
             UpdateInventory 1 (InventoryUpdate.mk 1 12 3);
             TransferInventory 1 (transfer_body 1 2 1 5);
             CreateOrder (OrderCreate.mk 7 2 [item 1 2])] in
  keys_unique (inventory (db empty_app))
  ∧ keys_unique (inventory (db (run rs empty_app)))
  ∧ length (inventory (db (run rs empty_app))) = 2%nat.
Proof.
  cbv zeta.
  assert (keys_unique (inventory (db empty_app))) as Hnd by constructor.
  split; [exact Hnd|]. split; [|by vm_compute].
  exact (run_keeps_keys_unique _ empty_app Hnd).
Defined.

Lemma websocket_connect_disconnect_witness :
  let s := observed [] [1%nat; 2%nat] [] in
  (3%nat ∉ connected_clients s)
  ∧ websocket_endpoint_except 3 (websocket_endpoint_accept 3 s)
    = (s, Return tt).
Proof.
  cbv zeta.
  assert (3%nat ∉ connected_clients (observed [] [1%nat; 2%nat] []))
    as Hnew by (by vm_compute).
  split; [exact Hnew|].
  exact (websocket_connect_disconnect 3 _ Hnew).
Defined.

Lemma transfer_there_and_back_witness :
  let s := stocked [Inventory.mk 1 1 10 0 4; Inventory.mk 1 2 5 0 4] in
  keys_unique (inventory (db s))
  ∧ reads_as_transfer (transfer_body 1 2 1 7) 1 2 1 7
  ∧ reads_as_transfer (transfer_body 2 1 1 7) 2 1 1 7
  ∧ inventory (db (transfer_inventory 1 (transfer_body 1 2 1 7) s).1)
    = [Inventory.mk 1 1 3 0 4; Inventory.mk 1 2 12 0 4]
  ∧ inventory (db (transfer_inventory 2 (transfer_body 2 1 1 7)
                     (transfer_inventory 1 (transfer_body 1 2 1 7) s).1).1)
    = inventory (db s).
Proof.
  cbv zeta.
  set (s := stocked [Inventory.mk 1 1 10 0 4; Inventory.mk 1 2 5 0 4]).
  assert (keys_unique (inventory (db s))) as Hkeys.
  { unfold keys_unique. simpl. apply NoDup_cons. split.
    - intros [[=]|[]%elem_of_nil]%elem_of_cons.
    - apply NoDup_singleton. }
  assert (reads_as_transfer (transfer_body 1 2 1 7) 1 2 1 7) as H1
    by (split_and!; by vm_compute).
  assert (reads_as_transfer (transfer_body 2 1 1 7) 2 1 1 7) as H2
    by (split_and!; by vm_compute).
  split; [exact Hkeys|]. split; [exact H1|]. split; [exact H2|]. split; [by vm_compute|].
  apply (transfer_there_and_back 1 2 _ _ s 1 2 1 7
           0%nat (Inventory.mk 1 1 10 0 4) 1%nat (Inventory.mk 1 2 5 0 4)
           Hkeys H1 H2);
    [lia|by vm_compute|by vm_compute|simpl; lia|simpl; lia].
Defined.

Lemma transfer_inventory_missing_key_witness :
  let transfer_data : gmap string Z :=
    {[ "from_warehouse_id" := 1; "product_id" := 1; "quantity" := 5 ]} in
  let s := stocked [Inventory.mk 1 1 10 0 4] in
  transfer_keys = ["from_warehouse_id"] ++ "to_warehouse_id" :: ["product_id"; "quantity"]
  ∧ Forall (λ k', is_Some (transfer_data !! k')) ["from_warehouse_id"]
  ∧ transfer_data !! "to_warehouse_id" = None
  ∧ transfer_inventory 1 transfer_data s
    = (s, Raise (KeyError "to_warehouse_id")).
Proof.
  cbv zeta.
  set (transfer_data :=
         ({[ "from_warehouse_id" := 1; "product_id" := 1; "quantity" := 5 ]}
          : gmap string Z)).
  assert (transfer_keys
          = ["from_warehouse_id"] ++ "to_warehouse_id" :: ["product_id"; "quantity"])
    as Hsplit by reflexivity.
  assert (Forall (λ k', is_Some (transfer_data !! k')) ["from_warehouse_id"])
    as Hpre.
  { repeat constructor. exists 1. by vm_compute. }
  assert (transfer_data !! "to_warehouse_id" = None) as Hk by (by vm_compute).
  split; [exact Hsplit|]. split; [exact Hpre|]. split; [exact Hk|].
  exact (transfer_inventory_missing_key 1 transfer_data _ _ _ _
           Hsplit Hpre Hk).
Defined.

Lemma create_order_malformed_item_witness :
  let s := stocked [Inventory.mk 1 1 10 0 4] in
  let order := OrderCreate.mk 7 1 [item 1 2; {[ "product_id" := 1 ]}] in
  Exists malformed (OrderCreate.items order)
  ∧ ∃ e, create_order order s
         = (rolled_back s, Raise (HTTPException 400 (StrOf e)))
       ∧ loop_error e.
Proof.
  cbv zeta.
  set (s := stocked [Inventory.mk 1 1 10 0 4]).
  set (order := OrderCreate.mk 7 1 [item 1 2; {[ "product_id" := 1 ]}]).
  assert (Exists malformed (OrderCreate.items order)) as Hbad.
  { simpl. apply Exists_cons_tl, Exists_cons_hd. right. by vm_compute. }
  split; [exact Hbad|].
  exact (create_order_malformed_item order s Hbad).
Defined.

Lemma run_keeps_order_ids_fresh_witness :
  let rs := [UpdateInventory 1 (InventoryUpdate.mk 1 10 3);
             CreateOrder (OrderCreate.mk 7 1 [item 1 2]);
             CreateOrder (OrderCreate.mk 7 1 [item 1 20]);
             CreateOrder (OrderCreate.mk 8 1 [item 1 3])] in
  order_ids_fresh (db empty_app)
  ∧ order_ids_fresh (db (run rs empty_app))
  ∧ Order.id <$> orders (db (run rs empty_app)) = [1; 3].
Proof.
  cbv zeta.
  assert (order_ids_fresh (db empty_app)) as Hfresh
    by (split; constructor).
  split; [exact Hfresh|]. split; [|by vm_compute].
  exact (run_keeps_order_ids_fresh _ empty_app Hfresh).
Defined.

Lemma get_order_after_create_witness :
  let s := stocked [Inventory.mk 1 1 10 0 4] in
  let order := OrderCreate.mk 7 1 [item 1 2] in
  let o := Order.mk 1 7 "COMPLETED" 1 in
  order_ids_fresh (db s)
  ∧ (create_order order s).2 = Return o
  ∧ get_order 1 (create_order order s).1 = Return o.
Proof.
  cbv zeta.
  set (s := stocked [Inventory.mk 1 1 10 0 4]).
  set (order := OrderCreate.mk 7 1 [item 1 2]).
  assert (order_ids_fresh (db s)) as Hfresh by (split; constructor).
  assert ((create_order order s).2 = Return (Order.mk 1 7 "COMPLETED" 1))
    as Hret by (by vm_compute).
  split; [exact Hfresh|]. split; [exact Hret|].
  exact (proj1 (get_order_after_create order s _ Hfresh Hret)).
Defined.

Lemma get_order_after_rejection_witness :
  let s := stocked [Inventory.mk 1 1 10 0 4] in
  let order := OrderCreate.mk 7 1 [item 1 20] in
  order_ids_fresh (db s)
  ∧ connected_clients s ## closed s
  ∧ (create_order order s).2
    = Raise (HTTPException 400 (StrOf (insufficient_stock 1)))
  ∧ orders (db (create_order order s).1) = []
  ∧ get_order 1 (create_order order s).1
    = Raise (HTTPException 404 (Text "Order not found")).
Proof.
  cbv zeta.
  set (s := stocked [Inventory.mk 1 1 10 0 4]).
  set (order := OrderCreate.mk 7 1 [item 1 20]).
  assert (order_ids_fresh (db s)) as Hfresh by (split; constructor).
  assert (connected_clients s ## closed s) as Hdisj.
  { intros c _ Hc. simpl in Hc. by apply not_elem_of_empty in Hc. }
  assert ((create_order order s).2
          = Raise (HTTPException 400 (StrOf (insufficient_stock 1))))
    as Hret by (by vm_compute).
  destruct (get_order_after_rejection order s _ Hfresh Hdisj Hret)
    as [Hord Hget].
  split; [exact Hfresh|]. split; [exact Hdisj|]. split; [exact Hret|].
  split; [exact Hord|exact Hget].
Defined.

Lemma get_product_after_create_witness :
  let c := mkCatalog [Product.mk 1 "Bolt" "M6" "BOLT-6" "Hardware"] 2 in
  let product := ProductCreate.mk "Nut" "M6" "NUT-6" "Hardware" in
  let acct := User.mk 1 "ann" "ann@example.org" "x" true false in
  let p := Product.mk 2 "Nut" "M6" "NUT-6" "Hardware" in
  product_ids_fresh c
  ∧ (create_product product c acct).2 = inr p
  ∧ get_product 2 (create_product product c acct).1 = inr p
  ∧ get_product 1 (create_product product c acct).1
    = inr (Product.mk 1 "Bolt" "M6" "BOLT-6" "Hardware").
Proof.
  cbv zeta.
  set (c := mkCatalog [Product.mk 1 "Bolt" "M6" "BOLT-6" "Hardware"] 2).
  set (product := ProductCreate.mk "Nut" "M6" "NUT-6" "Hardware").
  set (acct := User.mk 1 "ann" "ann@example.org" "x" true false).
  assert (product_ids_fresh c) as Hfresh.
  { split; [apply NoDup_singleton|]. by repeat constructor. }
  assert ((create_product product c acct).2
          = inr (Product.mk 2 "Nut" "M6" "NUT-6" "Hardware")) as Hret
    by (by vm_compute).
  destruct (get_product_after_create product c acct _ Hfresh Hret)
    as [Hnew Hold].
  split; [exact Hfresh|]. split; [exact Hret|]. split; [exact Hnew|].
  apply Hold. by vm_compute.
Defined.

Lemma create_product_keeps_sku_unique_witness :
  let c := mkCatalog [Product.mk 1 "Bolt" "M6" "BOLT-6" "Hardware"] 2 in
  let product := ProductCreate.mk "Bolt again" "M6" "BOLT-6" "Hardware" in
  let acct := User.mk 1 "ann" "ann@example.org" "x" true false in
  NoDup (Product.sku <$> products c)
  ∧ product_ids_fresh c
  ∧ (create_product product c acct).2 = inl IntegrityError
  ∧ NoDup (Product.sku <$> products (create_product product c acct).1)
  ∧ product_ids_fresh (create_product product c acct).1.
Proof.
  cbv zeta.
  set (c := mkCatalog [Product.mk 1 "Bolt" "M6" "BOLT-6" "Hardware"] 2).
  set (product := ProductCreate.mk "Bolt again" "M6" "BOLT-6" "Hardware").
  set (acct := User.mk 1 "ann" "ann@example.org" "x" true false).
  assert (NoDup (Product.sku <$> products c)) as Hsku
    by apply NoDup_singleton.
  assert (product_ids_fresh c) as Hfresh.
  { split; [apply NoDup_singleton|]. by repeat constructor. }
  destruct (create_product_keeps_sku_unique product c acct Hsku Hfresh)
    as (Hsku' & Hfresh' & _).
  split; [exact Hsku|]. split; [exact Hfresh|]. split; [by vm_compute|].
  split; [exact Hsku'|exact Hfresh'].
Defined.

Lemma register_login_authenticate_witness :
  let a := mkAccounts [] 1 in
  let user := UserCreate.mk "ann" "ann@example.org" "secret" in
  let stored := User.mk 1 "ann" "ann@example.org" "secret" true false in
  let a' := mkAccounts [stored] 2 in
  create_user (H := toy_libraries) user "salt" a = (a', inr user)
  ∧ pwd_verify (Libraries := toy_libraries) "secret"
      (pwd_hash (Libraries := toy_libraries) "salt" "secret") = true
  ∧ ∃ token,
      login (H := toy_libraries) (LoginForm.mk "ann" "secret") 0 a'
      = inr token
      ∧ get_current_user (H := toy_libraries) (Token.access_token token) 5 a'
        = inr stored.
Proof.
  cbv zeta.
  set (a := mkAccounts [] 1).
  set (user := UserCreate.mk "ann" "ann@example.org" "secret").
  assert (create_user (H := toy_libraries) user "salt" a
          = (mkAccounts [User.mk 1 "ann" "ann@example.org" "secret" true false] 2,
             inr user)) as Hreg by (by vm_compute).
  assert (pwd_verify (Libraries := toy_libraries) "secret"
            (pwd_hash (Libraries := toy_libraries) "salt" "secret") = true)
    as Hverify by (by vm_compute).
  destruct (register_login_authenticate (H := toy_libraries)
              user "salt" a _ user 0 5 Hreg Hverify)
    as (token & Hlogin & Hauth & _); [by vm_compute|].
  split; [exact Hreg|]. split; [exact Hverify|].
  exists token. split; [exact Hlogin|exact Hauth].
Defined.

Lemma create_user_keeps_names_unique_witness :
  let a := mkAccounts [User.mk 1 "ann" "ann@example.org" "x" true false] 2 in
  let user := UserCreate.mk "bob" "ann@example.org" "secret" in
  NoDup (User.username <$> users a)
  ∧ NoDup (User.email <$> users a)
  ∧ (create_user (H := toy_libraries) user "salt" a).2 = inl IntegrityError
  ∧ NoDup (User.username
             <$> users (create_user (H := toy_libraries) user "salt" a).1)
  ∧ NoDup (User.email
             <$> users (create_user (H := toy_libraries) user "salt" a).1).
Proof.
  cbv zeta.
  set (a := mkAccounts [User.mk 1 "ann" "ann@example.org" "x" true false] 2).
  set (user := UserCreate.mk "bob" "ann@example.org" "secret").
  assert (NoDup (User.username <$> users a)) as Hname
    by apply NoDup_singleton.
  assert (NoDup (User.email <$> users a)) as Hmail by apply NoDup_singleton.
  destruct (create_user_keeps_names_unique (H := toy_libraries)
              user "salt" a Hname Hmail) as (Hname' & Hmail' & _).
  split; [exact Hname|]. split; [exact Hmail|]. split; [by vm_compute|].
  split; [exact Hname'|exact Hmail'].
Defined.
Lemma update_inventory_idempotent_witness :
  let s := stocked [Inventory.mk 1 1 10 2 4; Inventory.mk 1 2 5 0 4] in
  let update := InventoryUpdate.mk 1 7 9 in
  let s1 := (update_inventory 1 update s).1 in
  keys_unique (inventory (db s))
  ∧ inventory (db s1) = [Inventory.mk 1 1 7 2 9; Inventory.mk 1 2 5 0 4]
  ∧ inventory (db (update_inventory 1 update s1).1) = inventory (db s1).
Proof.
  cbv zeta.
  set (s := stocked [Inventory.mk 1 1 10 2 4; Inventory.mk 1 2 5 0 4]).
  assert (keys_unique (inventory (db s))) as Hkeys.
  { unfold keys_unique. simpl. apply NoDup_cons. split.
    - intros [[=]|[]%elem_of_nil]%elem_of_cons.
    - apply NoDup_singleton. }
  split; [exact Hkeys|]. split; [by vm_compute|].
  exact (proj1 (update_inventory_idempotent 1 (InventoryUpdate.mk 1 7 9) s
                  Hkeys)).
Defined.

Lemma login_answers_witness :
  let a := mkAccounts [User.mk 1 "ann" "ann@example.org" "secret" true false]
             2 in
  hashes_made (H := toy_libraries) a
  ∧ login (H := toy_libraries) (LoginForm.mk "ann" "secret") 0 a
    = inr (Token.mk "ann" "bearer")
  ∧ login (H := toy_libraries) (LoginForm.mk "ann" "guess") 0 a
    = inl incorrect_login
  ∧ login (H := toy_libraries) (LoginForm.mk "bob" "secret") 0 a
    = inl incorrect_login.
Proof.
  cbv zeta.
  set (a := mkAccounts [User.mk 1 "ann" "ann@example.org" "secret" true false]
              2).
  assert (hashes_made (H := toy_libraries) a) as Hmade.
  { repeat constructor. by exists "salt", "secret". }
  pose proof (login_answers (H := toy_libraries)
                (LoginForm.mk "ann" "secret") 0 a Hmade) as Hgood.
  pose proof (login_answers (H := toy_libraries)
                (LoginForm.mk "ann" "guess") 0 a Hmade) as Hbad.
  pose proof (login_answers (H := toy_libraries)
                (LoginForm.mk "bob" "secret") 0 a Hmade) as Hnone.
  split; [exact Hmade|]. split; [|split].
  - destruct (login (H := toy_libraries) (LoginForm.mk "ann" "secret") 0 a)
      as [f|token] eqn:Hl; [by vm_compute in Hl|].
    destruct Hgood as (_ & _ & _ & _ & ->). by vm_compute.
  - destruct (login (H := toy_libraries) (LoginForm.mk "ann" "guess") 0 a)
      as [f|token] eqn:Hl; [|by vm_compute in Hl].
    by destruct Hbad as [-> _].
  - destruct (login (H := toy_libraries) (LoginForm.mk "bob" "secret") 0 a)
      as [f|token] eqn:Hl; [|by vm_compute in Hl].
    by destruct Hnone as [-> _].
Defined.
End FurtherWitnesses.
